(** * A request builder: filter trees, select trees and sort directives

    Shallow embedding of the TypeScript sources

    - [src/src/User.ts] (the part that holds [Filter.ts]): [escape] and the
      class [FilterBuilder];
    - [src/unnamed/part_002]: the class [Query] with [buildSelect] and
      [formatSort];
    - [src/src/Query.ts]: the other revision of the class [Query], with its
      own [formatSort].

    A [FilterBuilder] is a mutable object; callbacks receive a reference to
    it.  Objects therefore live in a store, references are addresses, and the
    methods are computations of a state-and-failure monad. *)

From Stdlib Require Import Ascii String ZArith Lia.
From stdpp Require Import base strings list pretty gmap.

Set Default Proof Using "Type".
Set Warnings "-register-all".

(** ** The run-time primitives the sources rely on *)

Module Js.

(** A string of the run time is held by the bytes of its UTF-8 encoding.
    The characters that the sources single out (backslash, double quote,
    the character of code 0, the slash) are one byte each, and no byte of a
    longer encoding equals one of them. *)

(** The one-character strings that cannot be typed inside a literal. *)
Definition dquote : string := String "034"%char EmptyString.
Definition backslash : string := String "092"%char EmptyString.

(** [Array.prototype.join] on an array of strings. *)
Definition join (sep : string) (xs : list string) : string :=
  String.concat sep xs.

(** [String.prototype.replace] with a global regular expression that
    matches single characters ([matches]) and a replacement that may
    mention the matched character ([$&], the argument of [repl]). *)
Fixpoint replace (matches : ascii -> bool) (repl : ascii -> string)
    (str : string) : string :=
  match str with
  | EmptyString => EmptyString
  | String c rest =>
      (if matches c then repl c else String c EmptyString)
        +:+ replace matches repl rest
  end.

(** [Number.MAX_SAFE_INTEGER] and [Number.isSafeInteger] on an integer. *)
Definition MAX_SAFE_INTEGER : Z := 9007199254740991.

Definition is_safe (n : Z) : bool := (Z.abs n <=? MAX_SAFE_INTEGER)%Z.

(** The decimal numeral of an integer, with a minus sign in front when it
    is negative. *)
Definition decimal (n : Z) : string := pretty n.

(** [n] occurrences of the digit 0. *)
Fixpoint zeros (n : nat) : string :=
  match n with
  | 0 => EmptyString
  | S m => String "0" (zeros m)
  end.

(** A string of digits without the zeros that end it. *)
Fixpoint strip_zeros (ds : string) : string :=
  match ds with
  | EmptyString => EmptyString
  | String c rest =>
      match strip_zeros rest with
      | EmptyString =>
          if Ascii.eqb c "0" then EmptyString else String c EmptyString
      | kept => String c kept
      end
  end.

(** The [n] most significant digits of a string of digits, and the
    remaining ones. *)
Fixpoint most_significant (n : nat) (ds : string) : string :=
  match n, ds with
  | S m, String c rest => String c (most_significant m rest)
  | _, _ => EmptyString
  end.

Fixpoint remaining (n : nat) (ds : string) : string :=
  match n, ds with
  | S m, String _ rest => remaining m rest
  | _, _ => ds
  end.

(** A number of the run time, a double.  The sources read nothing of a
    number but the text that [Number::toString] of ECMA-262 returns for it,
    so a number is held by what that algorithm reads off it: whether it is
    [NaN], an infinity or a zero, and otherwise its sign and the integers
    [s] and [n] of step 5 of the algorithm, the digits of the shortest
    decimal that denotes the number and the position of its point, the
    value being [0.s] times ten to the [n].  Every double is one of these
    values; the decimals of the type that are no double are printed by the
    same rules. *)
Inductive Number : Type :=
| NaN
| Infinity (negative : bool)
| Zero (negative : bool)
| Finite (negative : bool) (s : positive) (n : Z).

(** Steps 5 to 11 of [Number::toString], for the radix 10.  Step 5 takes
    the number of digits [k] as small as possible, without zeros at the
    end of [s]. *)
Definition unsigned_text (s : positive) (n : Z) : string :=
  let ds := strip_zeros (decimal (Z.pos s)) in
  let k := Z.of_nat (String.length ds) in
  if ((-5 <=? n) && (n <=? 21))%Z then
    if (k <=? n)%Z then ds +:+ zeros (Z.to_nat (n - k))
    else if (0 <? n)%Z then
      most_significant (Z.to_nat n) ds +:+ "." +:+ remaining (Z.to_nat n) ds
    else "0." +:+ zeros (Z.to_nat (- n)) +:+ ds
  else
    let e := (n - 1)%Z in
    let exponent := (if (e <? 0)%Z then "-" else "+") +:+ decimal (Z.abs e) in
    if (k =? 1)%Z then ds +:+ "e" +:+ exponent
    else most_significant 1 ds +:+ "." +:+ remaining 1 ds +:+ "e" +:+ exponent.

Definition sign_text (negative : bool) : string :=
  if negative then "-" else EmptyString.

(** [Number::toString]: steps 1 to 4, then the digits. *)
Definition Number_toString (x : Number) : string :=
  match x with
  | NaN => "NaN"
  | Zero _ => "0"
  | Infinity negative => sign_text negative +:+ "Infinity"
  | Finite negative s n => sign_text negative +:+ unsigned_text s n
  end.

(** The number that an integer literal denotes, for a safe integer: the
    shortest decimal that denotes a safe integer is its own numeral, the
    doubles next to it being at most 1 away. *)
Definition Number_of_Z (n : Z) : Number :=
  match n with
  | Z0 => Zero false
  | Z.pos p => Finite false p (Z.of_nat (String.length (decimal (Z.pos p))))
  | Z.neg p => Finite true p (Z.of_nat (String.length (decimal (Z.pos p))))
  end.

Definition Boolean_toString (b : bool) : string :=
  if b then "true" else "false".

End Js.

(** ** [Filter.ts] *)

Module Filter.

Import Js.

(** [type AndOr = 'and' | 'or'] *)
Inductive AndOr : Set := AND | OR.

Definition AndOr_text (a : AndOr) : string :=
  match a with AND => "and" | OR => "or" end.

(** [type Operator = 'eq' | 'neq' | ... | 'in'] *)
Inductive Operator : Set :=
| op_eq | op_neq | op_gte | op_gt | op_lte | op_lt
| op_search | op_ilike | op_like | op_contains | op_in.

Definition Operator_text (o : Operator) : string :=
  match o with
  | op_eq => "eq" | op_neq => "neq" | op_gte => "gte" | op_gt => "gt"
  | op_lte => "lte" | op_lt => "lt" | op_search => "search"
  | op_ilike => "ilike" | op_like => "like" | op_contains => "contains"
  | op_in => "in"
  end.

(** [type Value = string | string[] | number | number[] | boolean] *)
Inductive Value : Type :=
| VString (s : string)
| VStrings (xs : list string)
| VNum (x : Number)
| VNums (xs : list Number)
| VBoolean (b : bool).

(** The number and the array of numbers written as integer literals. *)
Abbreviation VNumber n := (VNum (Number_of_Z n)).
Abbreviation VNumbers xs := (VNums (Number_of_Z <$> xs)).

(** [interface Expression] *)
Record Expression : Type := mkExpression {
  key : string;
  operator : Operator;
  value : Value
}.

(** The two character classes of [escape]: the first matches a backslash
    or a double quote, the second the character of code 0. *)
Definition is_backslash_or_dquote (c : ascii) : bool :=
  (Ascii.eqb c "092" || Ascii.eqb c "034")%char.

Definition is_nul (c : ascii) : bool := Ascii.eqb c "000"%char.

(** [function escape(str)]: two global replacements, one after the other. *)
Definition escape (str : string) : string :=
  replace is_nul (fun _ => backslash +:+ "0")
    (replace is_backslash_or_dquote
       (fun matched => backslash +:+ String matched EmptyString)
       (str +:+ EmptyString)).

(** [FilterBuilder.buildExpression] *)
Definition buildExpression (expression : Expression) : string :=
  let value :=
    match value expression with
    | VStrings xs => "(" +:+ join "," xs +:+ ")"
    | VNums xs => "(" +:+ join "," (Number_toString <$> xs) +:+ ")"
    | VString s => dquote +:+ escape s +:+ dquote
    | VNum x => Number_toString x
    | VBoolean b => Boolean_toString b
    end in
  key expression +:+ "." +:+ Operator_text (operator expression)
    +:+ "." +:+ value.

(** *** The store of builder objects *)

(** A reference to a [FilterBuilder] object. *)
Abbreviation loc := nat.

(** An element of [expressions : (Expression | FilterBuilder)[]]. *)
Inductive Entry : Type :=
| EExpression (e : Expression)
| EBuilder (b : loc).

(** The fields of a [FilterBuilder] object. *)
Record Object : Type := mkObject {
  and_or : AndOr;
  expressions : list Entry
}.

(** The store: the object at address [l] is the [l]-th element; [new]
    appends, nothing is ever freed. *)
Abbreviation heap := (list Object).

(** Computations on the store.  [None] is a run that does not return: a
    reference outside the store, or (for [build]) an exhausted call
    stack. *)
Definition M (A : Type) : Type := heap -> option (A * heap).

Definition ret {A} (a : A) : M A := fun h => Some (a, h).

Definition bind {A B} (m : M A) (k : A -> M B) : M B :=
  fun h => match m h with
           | Some (a, h') => k a h'
           | None => None
           end.

Definition fail {A} : M A := fun _ => None.

Declare Scope filter_scope.
Delimit Scope filter_scope with filter.
Notation "x <- m ;; k" := (bind m (fun x => k))
  (at level 100, m at next level, right associativity) : filter_scope.
Notation "m ;; k" := (bind m (fun _ => k))
  (at level 100, right associativity) : filter_scope.
Local Open Scope filter_scope.

Definition alloc (o : Object) : M loc :=
  fun h => Some (length h, h ++ [o]).

Definition load (l : loc) : M Object :=
  fun h => match h !! l with
           | Some o => Some (o, h)
           | None => None
           end.

Definition store (l : loc) (o : Object) : M unit :=
  fun h => Some (tt, <[l := o]> h).

(** [this.and_or = a] *)
Definition set_and_or (this : loc) (a : AndOr) : M unit :=
  o <- load this ;;
  store this {| and_or := a; expressions := expressions o |}.

(** [this.expressions.push(entry)] *)
Definition push (this : loc) (entry : Entry) : M unit :=
  o <- load this ;;
  store this {| and_or := and_or o; expressions := expressions o ++ [entry] |}.

(** [Array.prototype.map] with a callback that runs in the store. *)
Fixpoint Array_map {A B} (f : A -> M B) (xs : list A) : M (list B) :=
  match xs with
  | [] => ret []
  | x :: rest =>
      y <- f x ;;
      ys <- Array_map f rest ;;
      ret (y :: ys)
  end.

(** *** The class [FilterBuilder] *)

(** [type BuilderCallback = (builder: FilterBuilder) => FilterBuilder | void];
    the callers drop what the callback returns. *)
Definition BuilderCallback : Type := loc -> M unit.

(** [constructor(and_or?: AndOr)] *)
Definition new_FilterBuilder (a : option AndOr) : M loc :=
  alloc {| and_or := match a with None => AND | Some a' => a' end;
           expressions := [] |}.

(** [addExpression(key, operator, value): this] *)
Definition addExpression (this : loc) (k : string) (o : Operator)
    (v : Value) : M loc :=
  push this (EExpression {| key := k; operator := o; value := v |}) ;;
  ret this.

(** [private addBooleanExpr(expr_type, callback)] *)
Definition addBooleanExpr (this : loc) (expr_type : AndOr)
    (callback : BuilderCallback) : M unit :=
  o <- load this ;;
  if length (expressions o) =? 0 then
    set_and_or this expr_type ;;
    callback this
  else
    builder <- new_FilterBuilder (Some expr_type) ;;
    callback builder ;;
    push this (EBuilder builder).

Definition or (this : loc) (callback : BuilderCallback) : M loc :=
  addBooleanExpr this OR callback ;;
  ret this.

Definition and (this : loc) (callback : BuilderCallback) : M loc :=
  addBooleanExpr this AND callback ;;
  ret this.

(** The convenience wrappers.  The parameter annotations of the source
    ([number] for [whereGte], ...) are erased at run time; each body hands
    its argument to [addExpression] unchanged. *)
Definition where_ this k v := addExpression this k op_eq v.
Definition whereNot this k v := addExpression this k op_neq v.
Definition whereGte this k v := addExpression this k op_gte v.
Definition whereGt this k v := addExpression this k op_gt v.
Definition whereLte this k v := addExpression this k op_lte v.
Definition whereLt this k v := addExpression this k op_lt v.
Definition whereLike this k v := addExpression this k op_like v.
Definition whereILike this k v := addExpression this k op_ilike v.
Definition whereSearch this k v := addExpression this k op_search v.
Definition whereContains this k v := addExpression this k op_contains v.
Definition whereIn this k v := addExpression this k op_in v.

(** The arrow function that [build] maps over [this.expressions];
    [build] is the recursive call [expr.build()]. *)
Definition build_entry (build : loc -> M string) (expr : Entry) : M string :=
  match expr with
  | EBuilder b => build b
  | EExpression e => ret (buildExpression e)
  end.

(** [build(): string].  [fuel] bounds the depth of the recursion, the
    call stack of the run-time. *)
Fixpoint build (fuel : nat) (this : loc) : M string :=
  match fuel with
  | 0 => fail
  | S fuel' =>
      o <- load this ;;
      if length (expressions o) =? 0 then ret EmptyString
      else
        exprs <- Array_map (build_entry (build fuel')) (expressions o) ;;
        o' <- load this ;;
        ret (AndOr_text (and_or o') +:+ "(" +:+ join "," exprs +:+ ")")
  end.

(** *** Callers of the builder

    A caller is a sequence of method calls on the builders in its scope;
    the callback handed to [and] or [or] is such a sequence again, with the
    builder it receives added to the scope.  [target] counts scopes
    outwards: 0 is the parameter of the innermost enclosing callback.  The
    convenience wrappers are [CallAddExpression] with their operator. *)
Inductive Call : Type :=
| CallAddExpression (target : nat) (k : string) (o : Operator) (v : Value)
| CallAnd (target : nat) (body : list Call)
| CallOr (target : nat) (body : list Call).

Fixpoint sequence (run : Call -> M unit) (calls : list Call) : M unit :=
  match calls with
  | [] => ret tt
  | c :: rest => run c ;; sequence run rest
  end.

Fixpoint exec (env : list loc) (c : Call) : M unit :=
  match c with
  | CallAddExpression target k o v =>
      match env !! target with
      | Some this => addExpression this k o v ;; ret tt
      | None => fail
      end
  | CallAnd target body =>
      match env !! target with
      | Some this =>
          and this (fun builder => sequence (exec (builder :: env)) body) ;;
          ret tt
      | None => fail
      end
  | CallOr target body =>
      match env !! target with
      | Some this =>
          or this (fun builder => sequence (exec (builder :: env)) body) ;;
          ret tt
      | None => fail
      end
  end.

(** The callback whose body is [body], closed over the builders [env]. *)
Definition callback_of (env : list loc) (body : list Call)
    : BuilderCallback :=
  fun builder => sequence (exec (builder :: env)) body.

(** The statement [new FilterBuilder()] followed by the calls [calls] on
    the new builder, from an empty store. *)
Definition fresh_builder (calls : list Call) : option (loc * heap) :=
  (root <- new_FilterBuilder None ;;
   sequence (exec [root]) calls ;;
   ret root) [].

(** The callback that adds the expressions [es], in order, to the
    builder it receives: [b => { b.addExpression(...); ... }]. *)
Fixpoint adding (es : list Expression) : BuilderCallback :=
  fun builder =>
    match es with
    | [] => ret tt
    | e :: rest =>
        addExpression builder (key e) (operator e) (value e) ;;
        adding rest builder
    end.

(** *** Vocabulary of the statements *)

(** What the specification says of [escape], character by character: a
    backslash or double quote gets a backslash in front, the character of
    code 0 becomes a backslash and the digit 0. *)
Definition escaped_char (c : ascii) : string :=
  if is_backslash_or_dquote c then backslash +:+ String c EmptyString
  else if is_nul c then backslash +:+ "0"
  else String c EmptyString.

Fixpoint escaped (s : string) : string :=
  match s with
  | EmptyString => EmptyString
  | String c rest => escaped_char c +:+ escaped rest
  end.

(** The characters of a string. *)
Fixpoint chars (s : string) : list ascii :=
  match s with
  | EmptyString => []
  | String c rest => c :: chars rest
  end.

(** A character other than the double quote. *)
Definition plain (c : ascii) : Prop := c <> "034"%char.

(** The character of the digit [n], for [n] from 0 to 9: the digits are
    the characters of codes 48 to 57. *)
Definition digit (n : Z) : ascii := ascii_of_N (48 + Z.to_N n).

(** A store is well formed when every child reference points to an object
    of the store that was allocated after its parent. *)
Definition wf (h : heap) : Prop :=
  forall l o b,
    h !! l = Some o -> EBuilder b ∈ expressions o -> l < b < length h.

(** [evolves h h']: every object of [h] is still there in [h'], with the
    children it had as the first of its children, and with the combinator
    it had if it had a child; and [h'] is well formed if [h] was. *)
Definition evolves (h h' : heap) : Prop :=
  length h <= length h' /\
  (wf h -> wf h') /\
  forall l o,
    h !! l = Some o ->
    exists o',
      h' !! l = Some o' /\
      expressions o `prefix_of` expressions o' /\
      (expressions o <> [] -> and_or o' = and_or o).

(** The store [h] after a new object [sub] was allocated and pushed onto
    the group [this], whose fields were [o]. *)
Definition pushed (this : loc) (o sub : Object) (h : heap) : heap :=
  <[this := {| and_or := and_or o;
               expressions := expressions o ++ [EBuilder (length h)] |}]>
    (h ++ [sub]).

(** The targets of a call are within the [depth] builders in scope. *)
Fixpoint scoped (depth : nat) (c : Call) : bool :=
  match c with
  | CallAddExpression target _ _ _ => target <? depth
  | CallAnd target body | CallOr target body =>
      (target <? depth) && forallb (scoped (S depth)) body
  end.

(** A call that adds no expression, nor do the calls of its callback. *)
Fixpoint no_expressions (c : Call) : bool :=
  match c with
  | CallAddExpression _ _ _ _ => false
  | CallAnd _ body | CallOr _ body => forallb no_expressions body
  end.

(** The builders in scope are objects of the store. *)
Definition valid (env : list loc) (h : heap) : Prop :=
  Forall (fun l => l < length h) env.

(** A store that holds one group, without children. *)
Definition single_empty (h : heap) : Prop :=
  exists a, h = [{| and_or := a; expressions := [] |}].

(** A callback is well behaved when each of its runs that returns is a
    step of [evolves]; the callbacks made of method calls are (see
    [callback_of_well_behaved]). *)
Definition well_behaved (callback : BuilderCallback) : Prop :=
  forall builder h u h', callback builder h = Some (u, h') -> evolves h h'.

End Filter.

(** ** The class [Query] of [src/unnamed/part_002] *)

Module Query.

Import Js.

(** [type SortOrder = "asc" | "desc"] *)
Inductive SortOrder : Set := asc | desc.

(** [interface Sort] *)
Record Sort : Type := mkSort {
  key : string;
  order : SortOrder
}.

(** [type SimplifiedSelect = string | [string, SimplifiedSelect[]]] *)
Inductive SimplifiedSelect : Type :=
| Field (name : string)
| Relation (name : string) (fields : list SimplifiedSelect).

(** The arrow function that [buildSelect] maps over [fields]; its call of
    [this.buildSelect(value[1])] is the inner [join] of [map]. *)
Fixpoint buildSelect_value (value : SimplifiedSelect) : string :=
  match value with
  | Field name => name
  | Relation name fields =>
      name +:+ "(" +:+ join "," (buildSelect_value <$> fields) +:+ ")"
  end.

(** [private buildSelect(fields: SimplifiedSelect[]): string] *)
Definition buildSelect (fields : list SimplifiedSelect) : string :=
  join "," (buildSelect_value <$> fields).

(** [protected formatSort(sorts: Sort[])] *)
Definition formatSort (sorts : list Sort) : list string :=
  (fun sort =>
     match order sort with
     | asc => key sort
     | desc => "!" +:+ key sort
     end) <$> sorts.

(** What the specification says of one sort directive: its key, with an
    exclamation mark in front when the order is descending. *)
Definition directive_text (sort : Sort) : string :=
  (match order sort with desc => "!" | asc => EmptyString end) +:+ key sort.

End Query.

(** ** The class [Query] of [src/src/Query.ts] *)

Module QueryPlain.

Import Js.

(** What a function hands back: a value, or [undefined] when its body
    ends without a [return]. *)
Inductive Result (A : Type) : Type :=
| undefined
| returned (a : A).
Arguments undefined {A}.
Arguments returned {A} a.

(** [protected formatSort(sorts: Sort[])]: the mapped array is computed
    and dropped, the body has no [return]. *)
Definition formatSort (sorts : list Query.Sort) : Result (list string) :=
  let _ :=
    (fun sort =>
       match Query.order sort with
       | Query.asc => Query.key sort
       | Query.desc => "!" +:+ Query.key sort
       end) <$> sorts in
  undefined.

(** The [sort] entry that [request] puts into the query parameters:
    [{ ...this.$queryParams, ...{ sort: this.formatSort(sort) } }]. *)
Definition request_sort (sorts : list Query.Sort) : Result (list string) :=
  formatSort sorts.

End QueryPlain.

(** ** Callers used in the statements *)

Module Examples.

Import Js Filter.
Local Open Scope filter_scope.

(** [whereIn("id", [1,2,3])], then [or] with a callback that adds
    [where("active", true)] and [whereGte("created_at", "2019-01-01")],
    then [build]. *)
Definition nested_or (fuel : nat) : M string :=
  b <- new_FilterBuilder None ;;
  whereIn b "id" (VNumbers [1; 2; 3]%Z) ;;
  or b (fun x =>
          where_ x "active" (VBoolean true) ;;
          whereGte x "created_at" (VString "2019-01-01") ;;
          ret tt) ;;
  build fuel b.

(** [where("a", 1)], then [or] with a callback that calls [and] on the
    builder it receives, with a callback that adds [where("x", 1)]. *)
Definition and_inside_or : M loc :=
  b <- new_FilterBuilder None ;;
  where_ b "a" (VNumber 1) ;;
  or b (fun sub =>
          and sub (fun inner => where_ inner "x" (VNumber 1) ;; ret tt) ;;
          ret tt).

(** The store in which the callback of [or] starts in [and_inside_or]:
    the root with its one leaf, and the subgroup that [addBooleanExpr]
    has just made with [new FilterBuilder('or')]. *)
Definition inside_or : heap :=
  [ {| and_or := AND;
       expressions := [EExpression (mkExpression "a" op_eq (VNumber 1))] |};
    {| and_or := OR; expressions := [] |} ].

(** The store of a new builder, and of one after [where("a", 1)] and
    after [whereIn("id", [1,2,3])]. *)
Definition new_object : Object := {| and_or := AND; expressions := [] |}.

Definition new_store : heap := [new_object].

Definition leaf_a : Object :=
  {| and_or := AND;
     expressions := [EExpression (mkExpression "a" op_eq (VNumber 1))] |}.

Definition leaf_id : Object :=
  {| and_or := AND;
     expressions :=
       [EExpression (mkExpression "id" op_in (VNumbers [1; 2; 3]%Z))] |}.

(** The expressions that the callbacks of the examples add. *)
Definition x_and_y : list Expression :=
  [mkExpression "x" op_eq (VNumber 1); mkExpression "y" op_eq (VNumber 2)].

Definition active_and_created : list Expression :=
  [mkExpression "active" op_eq (VBoolean true);
   mkExpression "created_at" op_gte (VString "2019-01-01")].

End Examples.

(** ** The builder methods and the requests of the class [Query]

    The methods of [src/unnamed/part_002] that the statements on
    [buildSelect] and [formatSort] leave out.  [$queryParams] and [$headers]
    are objects used as maps from names to values; [queryParameter] may
    write any name, so the values are those of the run time. *)

Module QueryClass.

Import Js Filter.
Local Open Scope filter_scope.

(** [enum Method] *)
Inductive Method : Set := GET | POST | PUT | PATCH | DELETE.

(** An element of an array held in [$queryParams]: a string (from
    [queryParameter]), a sort directive (from [sort]), or [undefined]
    (what the arrow function of [formatSort] returns when no [case]
    matches). *)
Inductive Element : Type :=
| EString (s : string)
| ESort (sort : Query.Sort)
| EUndefined.

(** The model's values of the nested [filters] object of
    [src/src/Query.ts]: [string | string[]]. *)
Inductive FilterValue : Type :=
| FString (s : string)
| FStrings (xs : list string).

(** A value held in [$queryParams]. *)
Inductive Param : Type :=
| PNull
| PString (s : string)
| PNumber (n : Js.Number)
| PArray (xs : list Element)
| PObject (fields : gmap string FilterValue).

(** The fields of a [Query] object. *)
Record Object : Type := mkQuery {
  queryParams : gmap string Param;
  headers_of : gmap string string;
  path : string
}.

(** [constructor(path: string)] *)
Definition new_Query (path : string) : Object :=
  {| queryParams :=
       <["select" := PNull]>
         (<["filter" := PNull]>
            (<["limit" := PNull]> (<["sort" := PArray []]> ∅)));
     headers_of := ∅;
     path := path |}.

(** [obj[key] = value] on a plain object, as far as the entries of the
    object go.  Under the name [__proto__] an object without an entry of
    that name reaches the setter that it inherits from [Object.prototype],
    which adds no entry: it ignores a value that is no object, and what it
    does with an object or [null] is to the prototype of [obj], not to its
    entries.  An entry of that name (the spread of [headers] can make one)
    is written like any other. *)
Definition assign {V} (key : string) (value : V) (obj : gmap string V)
    : gmap string V :=
  if String.eqb key "__proto__" then
    match obj !! key with
    | Some _ => <[key := value]> obj
    | None => obj
    end
  else <[key := value]> obj.

(** [queryParameter(key, value): this] *)
Definition queryParameter (key : string) (value : Param) (this : Object)
    : Object :=
  {| queryParams := assign key value (queryParams this);
     headers_of := headers_of this;
     path := path this |}.

(** [filter(callback): this]; [fuel] is the call stack left to [build]. *)
Definition filter (callback : BuilderCallback) (fuel : nat) (this : Object)
    : M Object :=
  builder <- new_FilterBuilder None ;;
  callback builder ;;
  text <- build fuel builder ;;
  ret (queryParameter "filter" (PString text) this).

(** [select(fields): this] *)
Definition select (fields : list Query.SimplifiedSelect) (this : Object)
    : Object :=
  {| queryParams :=
       <["select" := PString (Query.buildSelect fields)]> (queryParams this);
     headers_of := headers_of this;
     path := path this |}.

(** [rawSelect(select): this] *)
Definition rawSelect (select : string) (this : Object) : Object :=
  {| queryParams := <["select" := PString select]> (queryParams this);
     headers_of := headers_of this;
     path := path this |}.

(** [limit(n): this] *)
Definition limit (n : Js.Number) (this : Object) : Object :=
  {| queryParams := <["limit" := PNumber n]> (queryParams this);
     headers_of := headers_of this;
     path := path this |}.

(** [header(name, value): this] *)
Definition header (name value : string) (this : Object) : Object :=
  {| queryParams := queryParams this;
     headers_of := assign name value (headers_of this);
     path := path this |}.

(** [headers(headers): this]: [{ ...this.$headers, ...headers }], the
    entries of the argument win. *)
Definition headers (hs : gmap string string) (this : Object) : Object :=
  {| queryParams := queryParams this;
     headers_of := hs ∪ headers_of this;
     path := path this |}.

(** [sort(key, order): this].  [this.$queryParams.sort.push(...)] throws a
    [TypeError] ([None]) unless the value under [sort] is an array. *)
Definition sort (key : string) (order : Query.SortOrder) (this : Object)
    : option Object :=
  match queryParams this !! "sort" with
  | Some (PArray xs) =>
      Some {| queryParams :=
                <["sort" := PArray (xs ++ [ESort (Query.mkSort key order)])]>
                  (queryParams this);
              headers_of := headers_of this;
              path := path this |}
  | _ => None
  end.

Definition is_slash (c : ascii) : bool := Ascii.eqb c "047"%char.

(** [String.prototype.replace] with the regular expression of [getPath],
    one or more slashes followed by the end of the string, and the empty
    replacement: the first match is the whole run of slashes that ends the
    string; it is removed. *)
Fixpoint replace_trailing_slashes (str : string) : string :=
  match str with
  | EmptyString => EmptyString
  | String c rest =>
      match replace_trailing_slashes rest with
      | EmptyString => if is_slash c then EmptyString else String c EmptyString
      | kept => String c kept
      end
  end.

(** [undefined + str] and [str + str]. *)
Definition String_of (v : option string) : string :=
  match v with None => "undefined" | Some s => s end.

(** [getPath(id?: string): string].  [API_PATH] is [process.env.API_PATH];
    [id] is falsy when it is [undefined] or the empty string. *)
Definition getPath (API_PATH : option string) (id : option string)
    (this : Object) : string :=
  let path := replace_trailing_slashes (String_of API_PATH +:+ path this) in
  match id with
  | Some (String c rest) => path +:+ "/" +:+ String c rest
  | _ => path
  end.

(** The arrow function of [formatSort] on an element of the run time.
    Reading [order] of a string gives [undefined], and no [case] matches;
    reading it of [undefined] throws. *)
Definition formatSort_element (e : Element) : option Element :=
  match e with
  | ESort sort =>
      Some (match Query.order sort with
            | Query.asc => EString (Query.key sort)
            | Query.desc => EString ("!" +:+ Query.key sort)
            end)
  | EString _ => Some EUndefined
  | EUndefined => None
  end.

(** [Array.prototype.map] with a callback that may throw. *)
Fixpoint map_throwing {A B} (f : A -> option B) (xs : list A)
    : option (list B) :=
  match xs with
  | [] => Some []
  | x :: rest =>
      match f x with
      | Some y =>
          match map_throwing f rest with
          | Some ys => Some (y :: ys)
          | None => None
          end
      | None => None
      end
  end.

(** [formatSort] on what [$queryParams.sort] holds at run time: [map] is
    a method of arrays only. *)
Definition formatSort_value (v : option Param) : option Param :=
  match v with
  | Some (PArray xs) =>
      match map_throwing formatSort_element xs with
      | Some ys => Some (PArray ys)
      | None => None
      end
  | _ => None
  end.

(** A model's payload: an object with string fields, [id] among them. *)
Abbreviation Payload := (gmap string string).

(** The fields of [AxiosRequestConfig] that [request] sets. *)
Record Config : Type := mkConfig {
  url : string;
  method : Method;
  params : gmap string Param;
  headers_sent : gmap string string;
  data : option Payload
}.

(** [Partial<AxiosRequestConfig>], on the same fields. *)
Record Options : Type := mkOptions {
  o_url : option string;
  o_method : option Method;
  o_params : option (gmap string Param);
  o_headers : option (gmap string string);
  o_data : option Payload
}.

Definition no_options : Options :=
  {| o_url := None; o_method := None; o_params := None; o_headers := None;
     o_data := None |}.

Definition data_option (d : Payload) : Options :=
  {| o_url := None; o_method := None; o_params := None; o_headers := None;
     o_data := Some d |}.

(** [request(method, url, options?)], up to the call of [axios.request]:
    the configuration that is handed over.  The fields of [options] are
    spread last. *)
Definition request (m : Method) (u : string) (options : Options)
    (this : Object) : option Config :=
  match formatSort_value (queryParams this !! "sort") with
  | Some formatted =>
      Some {| url := default u (o_url options);
              method := default m (o_method options);
              params :=
                default (<["sort" := formatted]> (queryParams this))
                        (o_params options);
              headers_sent := default (headers_of this) (o_headers options);
              data := o_data options |}
  | None => None
  end.

(** [list()], [get(id)], [create(data)], [update(data)], [delete(model)] *)
Definition list (API_PATH : option string) (this : Object) : option Config :=
  request GET (getPath API_PATH None this) no_options this.

Definition get (API_PATH : option string) (id : string) (this : Object)
    : option Config :=
  request GET (getPath API_PATH (Some id) this) no_options this.

Definition create (API_PATH : option string) (d : Payload) (this : Object)
    : option Config :=
  request POST (getPath API_PATH None this) (data_option d) this.

Definition update (API_PATH : option string) (d : Payload) (this : Object)
    : option Config :=
  request PATCH (getPath API_PATH (d !! "id") this) (data_option d) this.

Definition delete (API_PATH : option string) (model : Payload) (this : Object)
    : option Config :=
  request DELETE (getPath API_PATH (model !! "id") this) no_options this.

End QueryClass.

(** ** The method [include] of the class [Query] of [src/src/Query.ts]

    The objects are those of [QueryClass]; [queryParameter] and [sort] have
    the same text in both revisions. *)

Module QueryPlainClass.

Import Js Filter.

(** [constructor(path: string)]: the entries are [includes], [filters],
    [limit] and [sort]. *)
Definition new_Query (path : string) : QueryClass.Object :=
  {| QueryClass.queryParams :=
       <["includes" := QueryClass.PArray []]>
         (<["filters" := QueryClass.PObject ∅]>
            (<["limit" := QueryClass.PNull]>
               (<["sort" := QueryClass.PArray []]> ∅)));
     QueryClass.headers_of := ∅;
     QueryClass.path := path |}.

(** A byte that continues the encoding of a code point: 128 to 191. *)
Definition is_continuation (c : ascii) : bool :=
  ((128 <=? N_of_ascii c) && (N_of_ascii c <? 192))%N.

(** [code_points_from s] reads [s] from its end: the continuation bytes
    that [s] starts with, and the code points after them. *)
Fixpoint code_points_from (s : string) : string * list string :=
  match s with
  | EmptyString => (EmptyString, [])
  | String c rest =>
      let (continuation, points) := code_points_from rest in
      if is_continuation c then (String c continuation, points)
      else (EmptyString, String c continuation :: points)
  end.

(** The code points of a string, each as a string of its own: what the
    iterator of a string yields.  Every byte that is not a continuation
    byte starts a code point. *)
Definition code_points (s : string) : list string :=
  match code_points_from s with
  | (EmptyString, points) => points
  | (stray, points) => stray :: points
  end.

(** The elements that the spread [...v] of an array literal takes from
    [v]: those of an array, the code points of a string; anything else is
    not iterable and the spread throws ([None]). *)
Definition spread (v : option QueryClass.Param)
    : option (list QueryClass.Element) :=
  match v with
  | Some (QueryClass.PArray xs) => Some xs
  | Some (QueryClass.PString s) => Some (QueryClass.EString <$> code_points s)
  | _ => None
  end.

(** [include(includes: string[]): this]:
    [this.$queryParams.include = [...this.$queryParams.include, ...includes]] *)
Definition include (includes : list string) (this : QueryClass.Object)
    : option QueryClass.Object :=
  match spread (QueryClass.queryParams this !! "include") with
  | Some xs =>
      Some (QueryClass.queryParameter "include"
              (QueryClass.PArray (xs ++ (QueryClass.EString <$> includes)))
              this)
  | None => None
  end.

End QueryPlainClass.

(** ** Vocabulary of the further statements *)

Module Vocabulary.

Import Js Filter.

(** Reading the body of a string literal from the left, as its reader
    does: a backslash takes the next character with it, a double quote on
    its own ends the literal.  [literal_body pending s] holds when [s] has
    no double quote on its own and does not end on a backslash that still
    waits for its character; [pending] says that a backslash was just
    read. *)
Fixpoint literal_body (pending : bool) (s : string) : bool :=
  match s with
  | EmptyString => negb pending
  | String c rest =>
      if pending then literal_body false rest
      else if Ascii.eqb c "092"%char then literal_body true rest
      else if Ascii.eqb c "034"%char then false
      else literal_body false rest
  end.

(** No group of the store has a subgroup as its first child. *)
Definition leaf_first (h : heap) : Prop :=
  forall l o b rest,
    h !! l = Some o -> expressions o = EBuilder b :: rest -> False.

(** A callback keeps [leaf_first]. *)
Definition keeps_leaf_first (callback : BuilderCallback) : Prop :=
  forall builder h u h',
    callback builder h = Some (u, h') -> leaf_first h -> leaf_first h'.

(** The string ends with a slash. *)
Fixpoint ends_with_slash (s : string) : bool :=
  match s with
  | EmptyString => false
  | String c EmptyString => QueryClass.is_slash c
  | String _ rest => ends_with_slash rest
  end.

(** A run of [n] slashes. *)
Fixpoint slashes (n : nat) : string :=
  match n with
  | 0 => EmptyString
  | S n' => String "047"%char (slashes n')
  end.


(** How often the character [c] occurs in [s]. *)
Fixpoint count_char (c : ascii) (s : string) : nat :=
  match s with
  | EmptyString => 0
  | String d rest => (if Ascii.eqb c d then 1 else 0) + count_char c rest
  end.

(** A name without parentheses. *)
Definition plain_name (name : string) : bool :=
  (count_char "040" name =? 0) && (count_char "041" name =? 0).

(** An entry of a select whose names, at every depth, have no
    parentheses. *)
Fixpoint plain_names (value : Query.SimplifiedSelect) : bool :=
  match value with
  | Query.Field name => plain_name name
  | Query.Relation name fields => plain_name name && forallb plain_names fields
  end.

End Vocabulary.

(** * Properties *)

Import Js Filter.
Local Open Scope filter_scope.

(** ** Strings *)

Section Strings.

Lemma append_cons c (s t : string) : String c s +:+ t = String c (s +:+ t).
Proof. reflexivity. Qed.

Lemma append_empty_l (s : string) : EmptyString +:+ s = s.
Proof. reflexivity. Qed.

Lemma append_empty_r (s : string) : s +:+ EmptyString = s.
Proof.
  induction s as [|c s IH]; [done |]. by rewrite append_cons, IH.
Qed.

Lemma append_assoc (a b c : string) : (a +:+ b) +:+ c = a +:+ (b +:+ c).
Proof.
  induction a as [|x a IH]; [done |]. by rewrite !append_cons, IH.
Qed.

Lemma replace_cons matches repl c rest :
  replace matches repl (String c rest)
  = (if matches c then repl c else String c EmptyString)
      +:+ replace matches repl rest.
Proof. reflexivity. Qed.

Lemma replace_append matches repl (a b : string) :
  replace matches repl (a +:+ b)
  = replace matches repl a +:+ replace matches repl b.
Proof.
  induction a as [|c a IH]; [done |].
  by rewrite append_cons, !replace_cons, IH, append_assoc.
Qed.

Lemma join_cons sep x y rest :
  join sep (x :: y :: rest) = x +:+ sep +:+ join sep (y :: rest).
Proof. done. Qed.

(** Joining after a [push]: the separator, then the new element. *)
Lemma join_snoc sep xs x :
  xs <> [] -> join sep (xs ++ [x]) = join sep xs +:+ sep +:+ x.
Proof.
  induction xs as [|a [|b xs] IH]; intros Hne; [done | done |].
  change ((a :: b :: xs) ++ [x]) with (a :: b :: (xs ++ [x])).
  rewrite !join_cons.
  change (b :: (xs ++ [x])) with ((b :: xs) ++ [x]).
  rewrite IH by done. by rewrite !append_assoc.
Qed.

End Strings.

(** ** The monad *)

Section Monad.

Lemma bind_Some {A B} (m : M A) (k : A -> M B) h r :
  bind m k h = Some r <-> exists a h1, m h = Some (a, h1) /\ k a h1 = Some r.
Proof.
  unfold bind. destruct (m h) as [[a h1]|]; split.
  - eauto.
  - by intros (? & ? & [= <- <-] & ?).
  - done.
  - by intros (? & ? & ? & ?).
Qed.

Lemma load_Some l h o h' : load l h = Some (o, h') <-> h !! l = Some o /\ h' = h.
Proof.
  unfold load. destruct (h !! l); split; try done.
  - by intros [= <- <-].
  - by intros [[= <-] ->].
  - by intros [? _].
Qed.

Lemma load_eq l h o : h !! l = Some o -> load l h = Some (o, h).
Proof. intros H. by apply load_Some. Qed.

Lemma push_eq this entry h o :
  h !! this = Some o ->
  push this entry h
  = Some (tt, <[this := {| and_or := and_or o;
                          expressions := expressions o ++ [entry] |}]> h).
Proof. intros H. unfold push, bind. by rewrite (load_eq _ _ _ H). Qed.

Lemma set_and_or_eq this a h o :
  h !! this = Some o ->
  set_and_or this a h
  = Some (tt, <[this := {| and_or := a; expressions := expressions o |}]> h).
Proof. intros H. unfold set_and_or, bind. by rewrite (load_eq _ _ _ H). Qed.

(** A [map] whose callback leaves the store alone leaves it alone. *)
Lemma Array_map_pure {A B} (f : A -> M B) xs :
  (forall x h y h', x ∈ xs -> f x h = Some (y, h') -> h' = h) ->
  forall h ys h', Array_map f xs h = Some (ys, h') -> h' = h.
Proof.
  induction xs as [|x xs IH]; intros Hf h ys h' Hrun; simpl in Hrun.
  - by injection Hrun as _ <-.
  - apply bind_Some in Hrun as (y & h1 & Hx & Hrun).
    apply bind_Some in Hrun as (zs & h2 & Hxs & Hrun).
    injection Hrun as _ <-.
    apply Hf in Hx as ->; [| by left].
    eapply IH; [| done]. intros. eapply Hf; [by right | done].
Qed.

(** Moving a [map] of store-preserving calls to another store. *)
Lemma Array_map_transport {A B} (f g : A -> M B) xs h h' :
  (forall x y h1, x ∈ xs -> f x h = Some (y, h1) -> h1 = h) ->
  (forall x y, x ∈ xs -> f x h = Some (y, h) -> g x h' = Some (y, h')) ->
  forall ys h1, Array_map f xs h = Some (ys, h1) ->
                Array_map g xs h' = Some (ys, h').
Proof.
  induction xs as [|x xs IH]; intros Hpure Hfg ys h1 Hrun; simpl in *.
  - by injection Hrun as <- _.
  - apply bind_Some in Hrun as (y & h2 & Hx & Hrun).
    apply bind_Some in Hrun as (zs & h3 & Hxs & Hrun).
    injection Hrun as <- _.
    assert (h2 = h) as -> by (eapply Hpure; [by left | done]).
    apply bind_Some. exists y, h'. split; [apply Hfg; [by left | done] |].
    apply bind_Some. exists zs, h'. split; [| done].
    eapply IH; [| | done]; intros.
    + eapply Hpure; [by right | done].
    + apply Hfg; [by right | done].
Qed.

(** A [map] returns when its callback returns on every element. *)
Lemma Array_map_total {A B} (f : A -> M B) xs h :
  (forall x, x ∈ xs -> exists y, f x h = Some (y, h)) ->
  exists ys, Array_map f xs h = Some (ys, h) /\ length ys = length xs.
Proof.
  induction xs as [|x xs IH]; intros Hf; simpl.
  - by exists [].
  - destruct (Hf x) as [y Hy]; [by left |].
    destruct IH as (ys & Hys & Hlen); [intros; apply Hf; by right |].
    exists (y :: ys). unfold bind. rewrite Hy, Hys. simpl. by rewrite Hlen.
Qed.

Lemma Array_map_length {A B} (f : A -> M B) xs :
  forall h ys h', Array_map f xs h = Some (ys, h') -> length ys = length xs.
Proof.
  induction xs as [|x xs IH]; intros h ys h' Hrun; simpl in *.
  - by injection Hrun as <- _.
  - apply bind_Some in Hrun as (y & h2 & Hx & Hrun).
    apply bind_Some in Hrun as (zs & h3 & Hxs & Hrun).
    injection Hrun as <- _. simpl. f_equal. by eapply IH.
Qed.

End Monad.

(** ** Serializing a builder *)

Section Build.

Lemma build_unfold fuel this :
  build (S fuel) this
  = (o <- load this ;;
     if length (expressions o) =? 0 then ret EmptyString
     else
       exprs <- Array_map (build_entry (build fuel)) (expressions o) ;;
       o' <- load this ;;
       ret (AndOr_text (and_or o') +:+ "(" +:+ join "," exprs +:+ ")")).
Proof. reflexivity. Qed.

Lemma length_eqb_0 {A} (xs : list A) :
  (length xs =? 0) = match xs with [] => true | _ => false end.
Proof. by destruct xs. Qed.

(** [build] writes nothing. *)
Lemma build_pure fuel :
  forall this h s h', build fuel this h = Some (s, h') -> h' = h.
Proof.
  induction fuel as [|fuel IH]; intros this h s h' Hrun; [done |].
  rewrite build_unfold in Hrun.
  apply bind_Some in Hrun as (o & h1 & Hload & Hrun).
  apply load_Some in Hload as [Ho ->].
  destruct (length (expressions o) =? 0).
  - by injection Hrun as _ <-.
  - apply bind_Some in Hrun as (rs & h2 & Hmap & Hrun).
    apply bind_Some in Hrun as (o' & h3 & Hload & Hrun).
    apply load_Some in Hload as [Ho' ->]. injection Hrun as _ <-.
    eapply Array_map_pure; [| done].
    intros [e|b] h0 y h1 _ Hx; simpl in Hx.
    + by injection Hx as _ <-.
    + by eapply IH.
Qed.

Lemma build_entry_pure fuel expr h y h' :
  build_entry (build fuel) expr h = Some (y, h') -> h' = h.
Proof.
  destruct expr as [e|b]; simpl; intros Hx.
  - by injection Hx as _ <-.
  - by eapply build_pure.
Qed.

(** [build] on a group without children. *)
Lemma build_empty fuel this h o :
  h !! this = Some o -> expressions o = [] ->
  build (S fuel) this h = Some (EmptyString, h).
Proof.
  intros Ho Hnil. rewrite build_unfold. unfold bind.
  by rewrite (load_eq _ _ _ Ho), Hnil.
Qed.

(** [build] on a group with children, from the texts of the children. *)
Lemma build_children fuel this h o rs :
  h !! this = Some o -> expressions o <> [] ->
  Array_map (build_entry (build fuel)) (expressions o) h = Some (rs, h) ->
  build (S fuel) this h
  = Some (AndOr_text (and_or o) +:+ "(" +:+ join "," rs +:+ ")", h).
Proof.
  intros Ho Hne Hmap. rewrite build_unfold. unfold bind at 1.
  rewrite (load_eq _ _ _ Ho), length_eqb_0.
  destruct (expressions o) eqn:E; [done |].
  unfold bind. by rewrite Hmap, (load_eq _ _ _ Ho).
Qed.

(** And back: what a returning [build] has computed. *)
Lemma build_inv fuel this h s h' :
  build (S fuel) this h = Some (s, h') ->
  h' = h /\
  exists o, h !! this = Some o /\
    ((expressions o = [] /\ s = EmptyString) \/
     (expressions o <> [] /\
      exists rs,
        Array_map (build_entry (build fuel)) (expressions o) h = Some (rs, h)
        /\ s = AndOr_text (and_or o) +:+ "(" +:+ join "," rs +:+ ")")).
Proof.
  intros Hrun. split; [by eapply build_pure |].
  rewrite build_unfold in Hrun.
  apply bind_Some in Hrun as (o & h1 & Hload & Hrun).
  apply load_Some in Hload as [Ho ->]. exists o. split; [done |].
  rewrite length_eqb_0 in Hrun. destruct (expressions o) eqn:E.
  - left. by injection Hrun as <- _.
  - right. split; [done |].
    apply bind_Some in Hrun as (rs & h2 & Hmap & Hrun).
    apply bind_Some in Hrun as (o' & h3 & Hload & Hrun).
    apply load_Some in Hload as [Ho' ->]. injection Hrun as <- _.
    assert (h2 = h) as ->.
    { eapply Array_map_pure; [| done]. intros. by eapply build_entry_pure. }
    exists rs. split; [done |]. congruence.
Qed.

(** More call stack does not change what [build] returns. *)
Lemma build_mono n :
  forall m this h r, n <= m -> build n this h = Some r -> build m this h = Some r.
Proof.
  induction n as [|n IH]; intros m this h [s h'] Hle Hrun; [done |].
  destruct m as [|m]; [lia |].
  apply build_inv in Hrun as (-> & o & Ho & [[Hnil ->] | (Hne & rs & Hmap & ->)]).
  - by eapply build_empty.
  - eapply build_children; [done | done |].
    eapply Array_map_transport; [| | done].
    + intros. by eapply build_entry_pure.
    + intros [e|b] y _ Hx; simpl in *; [done |]. eapply IH; [lia | done].
Qed.

Lemma build_deterministic n m this h r r' :
  build n this h = Some r -> build m this h = Some r' -> r = r'.
Proof.
  intros H1 H2.
  apply (build_mono n (n `max` m)) in H1; [| lia].
  apply (build_mono m (n `max` m)) in H2; [| lia].
  congruence.
Qed.

(** The text of a group depends only on the objects from its address on. *)
Lemma build_frame fuel :
  forall this h h' s,
    wf h ->
    (forall i, this <= i -> i < length h -> h' !! i = h !! i) ->
    build fuel this h = Some (s, h) ->
    build fuel this h' = Some (s, h').
Proof.
  induction fuel as [|fuel IH]; intros this h h' s Hwf Hagree Hrun; [done |].
  apply build_inv in Hrun as (_ & o & Ho & [[Hnil ->] | (Hne & rs & Hmap & ->)]).
  - eapply build_empty; [| done].
    rewrite Hagree; [done | lia | by eapply lookup_lt_Some].
  - assert (h' !! this = Some o) as Ho'.
    { rewrite Hagree; [done | lia | by eapply lookup_lt_Some]. }
    eapply build_children; [done | done |].
    eapply Array_map_transport; [| | done].
    + intros. by eapply build_entry_pure.
    + intros [e|b] y Hin Hx; simpl in *.
      * by injection Hx as <-.
      * destruct (Hwf _ _ _ Ho Hin) as [Hlt _].
        eapply IH; [done | | done]. intros. apply Hagree; lia.
Qed.

(** On a well-formed store [build] returns, within a call stack as deep
    as the store is long. *)
Lemma build_total h :
  wf h ->
  forall fuel this,
    length h <= this + fuel -> this < length h ->
    exists s, build fuel this h = Some (s, h).
Proof.
  intros Hwf. induction fuel as [|fuel IH]; intros this Hfuel Hthis; [lia |].
  destruct (lookup_lt_is_Some_2 h this Hthis) as [o Ho].
  destruct (decide (expressions o = [])) as [Hnil | Hne].
  - exists EmptyString. by eapply build_empty.
  - destruct (Array_map_total (build_entry (build fuel)) (expressions o) h)
      as (rs & Hrs & _).
    { intros [e|b] Hin; simpl; [by eexists |].
      destruct (Hwf _ _ _ Ho Hin). apply IH; lia. }
    eexists. by eapply build_children.
Qed.

(** The texts of leaves. *)
Lemma Array_map_leaves fuel es h :
  Array_map (build_entry (build fuel)) (EExpression <$> es) h
  = Some (buildExpression <$> es, h).
Proof.
  induction es as [|e es IH]; [done |].
  rewrite !fmap_cons. cbn [Array_map]. unfold bind at 1. cbn [build_entry ret].
  unfold bind. by rewrite IH.
Qed.

End Build.

(** ** The methods that change a builder *)

Section Methods.

Lemma Object_eta o : {| and_or := and_or o; expressions := expressions o |} = o.
Proof. by destruct o. Qed.

Lemma addExpression_eq this k op v h o :
  h !! this = Some o ->
  addExpression this k op v h
  = Some (this,
          <[this := {| and_or := and_or o;
                       expressions :=
                         expressions o
                         ++ [EExpression {| key := k; operator := op;
                                            value := v |}] |}]> h).
Proof.
  intros Ho. unfold addExpression, bind. by rewrite (push_eq _ _ _ _ Ho).
Qed.

Lemma adding_eq es :
  forall builder h o,
    h !! builder = Some o ->
    adding es builder h
    = Some (tt, <[builder := {| and_or := and_or o;
                                expressions :=
                                  expressions o ++ (EExpression <$> es) |}]> h).
Proof.
  induction es as [|e es IH]; intros builder h o Ho.
  - simpl. rewrite app_nil_r, Object_eta. by rewrite list_insert_id.
  - cbn [adding]. unfold bind.
    rewrite (addExpression_eq _ _ _ _ _ _ Ho).
    erewrite IH; [| apply list_lookup_insert_eq; by eapply lookup_lt_Some].
    cbn [and_or expressions]. rewrite list_insert_insert_eq, fmap_cons.
    destruct e. by rewrite <- app_assoc.
Qed.

(** The first branch of [addBooleanExpr]. *)
Lemma addBooleanExpr_empty_eq this expr_type callback h o :
  h !! this = Some o -> expressions o = [] ->
  addBooleanExpr this expr_type callback h
  = callback this (<[this := {| and_or := expr_type; expressions := [] |}]> h).
Proof.
  intros Ho Hnil. unfold addBooleanExpr. unfold bind at 1.
  rewrite (load_eq _ _ _ Ho), Hnil. cbn [length Nat.eqb]. unfold bind.
  by rewrite (set_and_or_eq _ _ _ _ Ho), Hnil.
Qed.

(** The second branch of [addBooleanExpr]. *)
Lemma addBooleanExpr_nonempty_eq this expr_type callback h o :
  h !! this = Some o -> expressions o <> [] ->
  addBooleanExpr this expr_type callback h
  = match callback (length h)
            (h ++ [{| and_or := expr_type; expressions := [] |}]) with
    | Some (_, h1) => push this (EBuilder (length h)) h1
    | None => None
    end.
Proof.
  intros Ho Hne. unfold addBooleanExpr. unfold bind at 1.
  rewrite (load_eq _ _ _ Ho), length_eqb_0.
  destruct (expressions o); [done |].
  unfold bind, new_FilterBuilder, alloc.
  by destruct (callback _ _) as [[]|].
Qed.

Lemma evolves_refl h : evolves h h.
Proof.
  split; [done |]. split; [done |]. intros l o Ho. by exists o.
Qed.

Lemma evolves_trans h1 h2 h3 : evolves h1 h2 -> evolves h2 h3 -> evolves h1 h3.
Proof.
  intros (Hlen1 & Hwf1 & Hobj1) (Hlen2 & Hwf2 & Hobj2).
  split; [lia |]. split; [tauto |].
  intros l o Ho.
  destruct (Hobj1 _ _ Ho) as (o1 & Ho1 & Hpre1 & Hfix1).
  destruct (Hobj2 _ _ Ho1) as (o2 & Ho2 & Hpre2 & Hfix2).
  exists o2. split; [done |]. split; [by etrans |].
  intros Hne. rewrite Hfix2; [by apply Hfix1 |].
  intros Hnil. rewrite Hnil in Hpre1. by apply prefix_nil_inv in Hpre1.
Qed.

(** Overwriting one object by one that keeps its children first, keeps
    its combinator if it had a child, and whose new children are later
    objects of the store. *)
Lemma evolves_insert this o o' h :
  h !! this = Some o ->
  expressions o `prefix_of` expressions o' ->
  (expressions o <> [] -> and_or o' = and_or o) ->
  (forall b, EBuilder b ∈ expressions o' ->
             EBuilder b ∈ expressions o \/ this < b < length h) ->
  evolves h (<[this := o']> h).
Proof.
  intros Ho Hpre Hfix Hnew. split; [by rewrite length_insert |]. split.
  - intros Hwf l o0 b Hl Hb. rewrite length_insert.
    apply list_lookup_insert_Some in Hl as [(<- & <- & _) | [Hne Hl]].
    + destruct (Hnew _ Hb) as [Hold | ?]; [by eapply Hwf | done].
    + by eapply Hwf.
  - intros l o0 Hl. destruct (decide (l = this)) as [-> | Hne].
    + exists o'. split; [| by simplify_eq].
      apply list_lookup_insert_eq. by eapply lookup_lt_Some.
    + exists o0. by rewrite list_lookup_insert_ne.
Qed.

Lemma evolves_alloc a h :
  evolves h (h ++ [{| and_or := a; expressions := [] |}]).
Proof.
  split; [rewrite length_app; lia |]. split.
  - intros Hwf l o b Hl Hb. rewrite length_app.
    apply lookup_app_Some in Hl as [Hl | [_ Hl]].
    + destruct (Hwf _ _ _ Hl Hb). lia.
    + apply list_lookup_singleton_Some in Hl as [_ <-].
      by apply elem_of_nil in Hb.
  - intros l o Hl. exists o. by rewrite (lookup_app_l_Some _ _ _ _ Hl).
Qed.

Lemma push_evolves this entry h u h' :
  push this entry h = Some (u, h') ->
  (forall b, entry = EBuilder b -> this < b < length h) ->
  evolves h h'.
Proof.
  intros Hrun Hentry. unfold push in Hrun.
  apply bind_Some in Hrun as (o & h1 & Hload & Hrun).
  apply load_Some in Hload as [Ho ->]. injection Hrun as <- <-.
  eapply evolves_insert; [done | by apply prefix_app_r | done |].
  cbn [expressions]. intros b [Hb | Hb%list_elem_of_singleton]%elem_of_app.
  - by left.
  - right. by apply Hentry.
Qed.

Lemma addExpression_evolves this k op v h u h' :
  addExpression this k op v h = Some (u, h') -> evolves h h'.
Proof.
  unfold addExpression. intros (? & h1 & Hpush & Hret)%bind_Some.
  injection Hret as _ <-. by eapply push_evolves.
Qed.

(** [addBooleanExpr] with a well-behaved callback. *)
Lemma addBooleanExpr_evolves this expr_type callback h u h' :
  well_behaved callback ->
  addBooleanExpr this expr_type callback h = Some (u, h') ->
  evolves h h'.
Proof.
  intros Hcb Hrun. unfold addBooleanExpr in Hrun.
  apply bind_Some in Hrun as (o & h0 & Hload & Hrun).
  apply load_Some in Hload as [Ho ->].
  rewrite length_eqb_0 in Hrun. destruct (expressions o) eqn:E.
  - apply bind_Some in Hrun as ([] & h1 & Hset & Hrun).
    rewrite (set_and_or_eq _ _ _ _ Ho) in Hset. injection Hset as <-.
    cbn beta in Hrun.
    eapply evolves_trans; [| by eapply Hcb].
    eapply evolves_insert; [done | done | by rewrite E |].
    intros b Hb. by left.
  - apply bind_Some in Hrun as (builder & h1 & Hnew & Hrun).
    injection Hnew as <- <-.
    apply bind_Some in Hrun as (? & h2 & Hcall & Hpush).
    apply Hcb in Hcall.
    eapply evolves_trans; [apply evolves_alloc |].
    eapply evolves_trans; [done |].
    eapply push_evolves; [done |]. intros b [= <-].
    destruct Hcall as (Hlen & _). rewrite length_app in Hlen. simpl in Hlen.
    apply lookup_lt_Some in Ho. lia.
Qed.

Lemma adding_well_behaved es : well_behaved (adding es).
Proof.
  induction es as [|e es IH]; intros builder h u h' Hrun; cbn [adding] in Hrun.
  - injection Hrun as _ <-. apply evolves_refl.
  - apply bind_Some in Hrun as (? & h1 & Hadd & Hrun).
    eapply evolves_trans; [by eapply addExpression_evolves | by eapply IH].
Qed.

End Methods.

(** ** Callers made of method calls *)

Section Callers.

(** Induction on a call, with the calls of its callback. *)
Lemma Call_nested_ind (P : Call -> Prop) :
  (forall target k o v, P (CallAddExpression target k o v)) ->
  (forall target body, Forall P body -> P (CallAnd target body)) ->
  (forall target body, Forall P body -> P (CallOr target body)) ->
  forall c, P c.
Proof.
  intros Hadd Hand Hor. fix IH 1.
  intros [target k o v | target body | target body].
  - apply Hadd.
  - apply Hand. induction body as [|c body IHbody]; constructor; [apply IH | done].
  - apply Hor. induction body as [|c body IHbody]; constructor; [apply IH | done].
Qed.

Lemma sequence_evolves calls :
  Forall (fun c => forall env h u h',
              exec env c h = Some (u, h') -> evolves h h') calls ->
  forall env h u h',
    sequence (exec env) calls h = Some (u, h') -> evolves h h'.
Proof.
  induction 1 as [|c calls Hc _ IH]; intros env h u h' Hrun; simpl in Hrun.
  - injection Hrun as _ <-. apply evolves_refl.
  - apply bind_Some in Hrun as (? & h1 & Hfirst & Hrest).
    eapply evolves_trans; [by eapply Hc | by eapply IH].
Qed.

Lemma exec_evolves c :
  forall env h u h', exec env c h = Some (u, h') -> evolves h h'.
Proof.
  induction c as [target k o v | target body IH | target body IH]
    using Call_nested_ind; intros env h u h' Hrun; cbn [exec] in Hrun;
    destruct (env !! target) as [this|]; try done.
  - apply bind_Some in Hrun as (? & h1 & Hadd & Hret).
    injection Hret as _ <-. by eapply addExpression_evolves.
  - apply bind_Some in Hrun as (? & h1 & Hand & Hret).
    injection Hret as _ <-. unfold and in Hand.
    apply bind_Some in Hand as (? & h2 & Hand & Hret).
    injection Hret as _ <-.
    eapply addBooleanExpr_evolves; [| done].
    intros builder ? ? ?. by apply sequence_evolves.
  - apply bind_Some in Hrun as (? & h1 & Hor & Hret).
    injection Hret as _ <-. unfold or in Hor.
    apply bind_Some in Hor as (? & h2 & Hor & Hret).
    injection Hret as _ <-.
    eapply addBooleanExpr_evolves; [| done].
    intros builder ? ? ?. by apply sequence_evolves.
Qed.

(** Every callback made of method calls is well behaved. *)
Lemma callback_of_well_behaved env body : well_behaved (callback_of env body).
Proof.
  intros builder h u h'. unfold callback_of. apply sequence_evolves.
  apply Forall_forall. intros c _. apply exec_evolves.
Qed.

Lemma wf_nil : wf [].
Proof. intros l o b Hl. by rewrite lookup_nil in Hl. Qed.

(** A builder made by method calls lives in a well-formed store. *)
Lemma fresh_builder_wf calls root h :
  fresh_builder calls = Some (root, h) -> wf h /\ root < length h.
Proof.
  unfold fresh_builder. intros (r & h1 & Hnew & Hrun)%bind_Some.
  injection Hnew as <- <-.
  apply bind_Some in Hrun as (? & h2 & Hrun & Hret). injection Hret as <- <-.
  apply (callback_of_well_behaved [] calls 0) in Hrun as (Hlen & Hwf & _).
  split; [| simpl in Hlen; lia].
  apply Hwf. apply (evolves_alloc AND []). apply wf_nil.
Qed.

(** ... and [build] returns on it. *)
Lemma fresh_builder_build calls root h :
  fresh_builder calls = Some (root, h) ->
  exists s, forall fuel, length h <= fuel -> build fuel root h = Some (s, h).
Proof.
  intros [Hwf Hroot]%fresh_builder_wf.
  destruct (build_total h Hwf (length h) root) as [s Hs]; [lia | done |].
  exists s. intros fuel Hfuel. by eapply build_mono.
Qed.

Lemma valid_evolves env h h' : evolves h h' -> valid env h -> valid env h'.
Proof.
  intros (Hlen & _) Hvalid. eapply Forall_impl; [done |].
  intros l Hl. simpl in *. lia.
Qed.

Lemma sequence_total calls :
  Forall (fun c => forall env h,
              scoped (length env) c = true -> valid env h ->
              exists h', exec env c h = Some (tt, h')) calls ->
  forall env h,
    forallb (scoped (length env)) calls = true -> valid env h ->
    exists h', sequence (exec env) calls h = Some (tt, h').
Proof.
  induction 1 as [|c calls Hc _ IH]; intros env h Hscoped Hvalid.
  - by eexists.
  - cbn [forallb] in Hscoped. apply andb_true_iff in Hscoped as [Hhead Hrest].
    destruct (Hc env h Hhead Hvalid) as [h1 Hrun].
    destruct (IH env h1 Hrest) as [h2 Hruns].
    { eapply valid_evolves; [by eapply exec_evolves | done]. }
    exists h2. cbn [sequence]. unfold bind. by rewrite Hrun.
Qed.

(** A scoping call returns when the calls of its callback do. *)
Lemma scoping_call_total this expr_type env body h :
  Forall (fun c => forall env h,
              scoped (length env) c = true -> valid env h ->
              exists h', exec env c h = Some (tt, h')) body ->
  forallb (scoped (S (length env))) body = true ->
  valid env h -> this < length h ->
  exists h',
    addBooleanExpr this expr_type
      (fun builder => sequence (exec (builder :: env)) body) h
    = Some (tt, h').
Proof.
  intros Hbody Hscoped Hvalid Hthis.
  destruct (lookup_lt_is_Some_2 h this Hthis) as [o Ho].
  destruct (decide (expressions o = [])) as [Hnil | Hne].
  - rewrite (addBooleanExpr_empty_eq _ _ _ _ _ Ho Hnil).
    apply sequence_total; [done | done |].
    constructor; rewrite ?length_insert; [done |].
    eapply Forall_impl; [done |]. by intros l Hl.
  - rewrite (addBooleanExpr_nonempty_eq _ _ _ _ _ Ho Hne).
    destruct (sequence_total body Hbody (length h :: env)
                (h ++ [{| and_or := expr_type; expressions := [] |}]))
      as [h1 Hrun]; [done | |].
    { constructor; rewrite ?length_app; [simpl; lia |].
      eapply Forall_impl; [done |]. intros l Hl. simpl in *. lia. }
    rewrite Hrun.
    assert (evolves (h ++ [{| and_or := expr_type; expressions := [] |}]) h1)
      as (Hlen & _).
    { eapply sequence_evolves; [| done].
      apply Forall_forall. intros c _. apply exec_evolves. }
    rewrite length_app in Hlen. simpl in Hlen.
    destruct (lookup_lt_is_Some_2 h1 this) as [o1 Ho1]; [lia |].
    rewrite (push_eq _ _ _ _ Ho1). by eexists.
Qed.

(** A caller whose targets are in scope returns. *)
Lemma exec_total c :
  forall env h,
    scoped (length env) c = true -> valid env h ->
    exists h', exec env c h = Some (tt, h').
Proof.
  induction c as [target k o v | target body IH | target body IH]
    using Call_nested_ind; intros env h Hscoped Hvalid; cbn [scoped] in Hscoped.
  - apply Nat.ltb_lt in Hscoped.
    destruct (lookup_lt_is_Some_2 env target Hscoped) as [this Hthis].
    pose proof (Forall_lookup_1 _ _ _ _ Hvalid Hthis) as Hlt. simpl in Hlt.
    destruct (lookup_lt_is_Some_2 h this Hlt) as [o0 Ho0].
    cbn [exec]. rewrite Hthis. unfold bind.
    rewrite (addExpression_eq _ _ _ _ _ _ Ho0). by eexists.
  - apply andb_true_iff in Hscoped as [Htarget%Nat.ltb_lt Hbody].
    destruct (lookup_lt_is_Some_2 env target Htarget) as [this Hthis].
    pose proof (Forall_lookup_1 _ _ _ _ Hvalid Hthis) as Hlt. simpl in Hlt.
    destruct (scoping_call_total this AND env body h IH Hbody Hvalid Hlt)
      as [h' Hrun].
    cbn [exec]. rewrite Hthis. unfold and, bind. rewrite Hrun. by eexists.
  - apply andb_true_iff in Hscoped as [Htarget%Nat.ltb_lt Hbody].
    destruct (lookup_lt_is_Some_2 env target Htarget) as [this Hthis].
    pose proof (Forall_lookup_1 _ _ _ _ Hvalid Hthis) as Hlt. simpl in Hlt.
    destruct (scoping_call_total this OR env body h IH Hbody Hvalid Hlt)
      as [h' Hrun].
    cbn [exec]. rewrite Hthis. unfold or, bind. rewrite Hrun. by eexists.
Qed.

(** A new builder and calls whose targets are in scope: the caller returns,
    in a well-formed store, and [build] returns on it. *)
Lemma fresh_builder_total calls :
  forallb (scoped 1) calls = true ->
  exists root h s,
    fresh_builder calls = Some (root, h) /\
    wf h /\ root < length h /\
    forall fuel, length h <= fuel -> build fuel root h = Some (s, h).
Proof.
  intros Hscoped.
  destruct (sequence_total calls) with (env := [0])
    (h := [{| and_or := AND; expressions := [] |}]) as [h Hrun].
  { apply Forall_forall. intros c _. apply exec_total. }
  { done. }
  { constructor; [simpl; lia | constructor]. }
  assert (fresh_builder calls = Some (0, h)) as Hfresh.
  { unfold fresh_builder, bind. cbn. by rewrite Hrun. }
  destruct (fresh_builder_wf _ _ _ Hfresh) as [Hwf Hroot].
  destruct (fresh_builder_build _ _ _ Hfresh) as [s Hs].
  by exists 0, h, s.
Qed.

(** Calls that add no expression leave a lone empty group alone, but for
    its combinator. *)
Lemma sequence_no_expressions calls :
  Forall (fun c => forall env h u h',
              no_expressions c = true -> single_empty h ->
              exec env c h = Some (u, h') -> single_empty h') calls ->
  forall env h u h',
    forallb no_expressions calls = true -> single_empty h ->
    sequence (exec env) calls h = Some (u, h') -> single_empty h'.
Proof.
  induction 1 as [|c calls Hc _ IH]; intros env h u h' Hno Hh Hrun;
    cbn [sequence forallb] in *.
  - by injection Hrun as _ <-.
  - apply andb_true_iff in Hno as [Hhead Hrest].
    apply bind_Some in Hrun as (? & h1 & Hfirst & Hruns).
    eapply IH; [done | | done]. by eapply Hc.
Qed.

Lemma scoping_call_no_expressions this expr_type env body h u h' :
  Forall (fun c => forall env h u h',
              no_expressions c = true -> single_empty h ->
              exec env c h = Some (u, h') -> single_empty h') body ->
  forallb no_expressions body = true -> single_empty h ->
  addBooleanExpr this expr_type
    (fun builder => sequence (exec (builder :: env)) body) h
  = Some (u, h') ->
  single_empty h'.
Proof.
  intros Hbody Hno [a ->] Hrun.
  unfold addBooleanExpr in Hrun.
  apply bind_Some in Hrun as (o & h0 & Hload & Hrun).
  apply load_Some in Hload as [Ho ->].
  destruct this as [|this]; [| by destruct this].
  injection Ho as <-. cbn in Hrun.
  eapply sequence_no_expressions; [done | done | | done].
  by exists expr_type.
Qed.

Lemma exec_no_expressions c :
  forall env h u h',
    no_expressions c = true -> single_empty h ->
    exec env c h = Some (u, h') -> single_empty h'.
Proof.
  induction c as [target k o v | target body IH | target body IH]
    using Call_nested_ind; intros env h u h' Hno Hh Hrun;
    cbn [no_expressions exec] in *; [done | |];
    destruct (env !! target) as [this|]; try done;
    apply bind_Some in Hrun as (? & h1 & Hcall & Hret);
    injection Hret as _ <-;
    apply bind_Some in Hcall as (? & h2 & Hcall & Hret);
    injection Hret as _ <-;
    by eapply scoping_call_no_expressions.
Qed.

Lemma fresh_builder_no_expressions calls root h :
  forallb no_expressions calls = true ->
  fresh_builder calls = Some (root, h) ->
  root = 0 /\ single_empty h.
Proof.
  intros Hno Hrun. unfold fresh_builder in Hrun.
  apply bind_Some in Hrun as (r & h1 & Hnew & Hrun).
  injection Hnew as <- <-.
  apply bind_Some in Hrun as (? & h2 & Hrun & Hret). injection Hret as <- <-.
  split; [done |].
  eapply sequence_no_expressions; [| done | | done].
  - apply Forall_forall. intros c _. apply exec_no_expressions.
  - by exists AND.
Qed.

End Callers.

(** ** Leaf expressions *)

Section Leaves.

Lemma escaped_char_eq c :
  replace is_nul (fun _ => backslash +:+ "0")
    (if is_backslash_or_dquote c
     then backslash +:+ String c EmptyString
     else String c EmptyString)
  = escaped_char c.
Proof.
  unfold escaped_char.
  destruct (is_backslash_or_dquote c) eqn:Hc.
  - unfold is_backslash_or_dquote in Hc.
    apply orb_true_iff in Hc as [->%Ascii.eqb_eq | ->%Ascii.eqb_eq]; reflexivity.
  - rewrite replace_cons. by destruct (is_nul c).
Qed.

(** The two passes of [escape] amount to one pass, character by
    character. *)
Lemma escape_escaped s : escape s = escaped s.
Proof.
  unfold escape. rewrite append_empty_r.
  induction s as [|c s IH]; [done |].
  rewrite replace_cons, replace_append, IH. cbn [escaped].
  by rewrite escaped_char_eq.
Qed.

Lemma chars_append a b : chars (a +:+ b) = chars a ++ chars b.
Proof.
  induction a as [|c a IH]; [done |].
  rewrite append_cons. simpl. by rewrite IH.
Qed.

Lemma pretty_N_char_plain d : plain (pretty_N_char d).
Proof. unfold plain, pretty_N_char. by repeat case_match. Qed.

Lemma pretty_N_go_plain x :
  forall s, Forall plain (chars s) -> Forall plain (chars (pretty_N_go x s)).
Proof.
  induction (N.lt_wf_0 x) as [x _ IH]; intros s Hs.
  destruct (decide (x = 0%N)) as [-> | Hx]; [done |].
  rewrite pretty_N_go_step by lia. apply IH.
  - apply N.div_lt; lia.
  - constructor; [apply pretty_N_char_plain | done].
Qed.

Lemma pretty_N_plain (x : N) : Forall plain (chars (pretty x)).
Proof.
  unfold pretty, pretty_N. case_decide.
  - by repeat constructor.
  - by apply pretty_N_go_plain.
Qed.

(** The decimal numeral of an integer holds no double quote. *)
Lemma decimal_plain n : Forall plain (chars (decimal n)).
Proof.
  unfold decimal, pretty, pretty_Z. destruct n as [|x|x].
  - by repeat constructor.
  - apply pretty_N_plain.
  - rewrite chars_append. apply Forall_app. split.
    + by repeat constructor.
    + apply pretty_N_plain.
Qed.

Lemma pretty_N_go_append x :
  forall s, pretty_N_go x s = pretty_N_go x EmptyString +:+ s.
Proof.
  induction (N.lt_wf_0 x) as [x _ IH]; intros s.
  destruct (decide (x = 0%N)) as [-> | Hx]; [done |].
  rewrite (pretty_N_go_step x s), (pretty_N_go_step x EmptyString) by lia.
  assert (x `div` 10 < x)%N as Hlt by (apply N.div_lt; lia).
  rewrite (IH _ Hlt (String (pretty_N_char (x `mod` 10)) s)).
  rewrite (IH _ Hlt (String (pretty_N_char (x `mod` 10)) EmptyString)).
  by rewrite append_assoc.
Qed.

Lemma pretty_N_last (x : N) :
  (10 <= x)%N ->
  pretty x
  = pretty (x `div` 10)%N
      +:+ String (pretty_N_char (x `mod` 10)) EmptyString.
Proof.
  intros Hx. unfold pretty, pretty_N.
  assert (x `div` 10 <> 0)%N as Hdiv.
  { intros Hdiv. apply N.div_small_iff in Hdiv; lia. }
  rewrite !decide_False by lia.
  rewrite (pretty_N_go_step x) by lia. apply pretty_N_go_append.
Qed.

Lemma decimal_of_N (x : N) : decimal (Z.of_N x) = pretty x.
Proof. by destruct x. Qed.

Lemma digit_of_N (x : N) : (x < 10)%N -> digit (Z.of_N x) = pretty_N_char x.
Proof.
  intros Hx. unfold digit. rewrite N2Z.id.
  assert (x = 0 \/ x = 1 \/ x = 2 \/ x = 3 \/ x = 4 \/ x = 5 \/ x = 6
          \/ x = 7 \/ x = 8 \/ x = 9)%N as Hcases by lia.
  repeat (destruct Hcases as [-> | Hcases]; [reflexivity |]).
  by subst.
Qed.

(** The equation that fixes the decimal numeral of every integer: a minus
    sign and the numeral of the opposite when it is negative, its digit
    when it is below ten, and otherwise the numeral of its tenth followed
    by its last digit. *)
Lemma decimal_equation n :
  decimal n
  = if (n <? 0)%Z then "-" +:+ decimal (- n)
    else if (n <? 10)%Z then String (digit n) EmptyString
    else decimal (n `div` 10) +:+ String (digit (n `mod` 10)) EmptyString.
Proof.
  destruct (Z.ltb_spec n 0) as [Hneg | Hpos].
  { destruct n as [|p|p]; try lia. reflexivity. }
  rewrite <- (Z2N.id n) by done. generalize (Z.to_N n). clear n Hpos.
  intros x.
  destruct (Z.ltb_spec (Z.of_N x) 10) as [Hsmall | Hbig].
  - rewrite decimal_of_N, digit_of_N by lia.
    assert (x = 0 \/ x = 1 \/ x = 2 \/ x = 3 \/ x = 4 \/ x = 5 \/ x = 6
            \/ x = 7 \/ x = 8 \/ x = 9)%N as Hcases by lia.
    repeat (destruct Hcases as [-> | Hcases]; [reflexivity |]).
    by subst.
  - change 10%Z with (Z.of_N 10) in *.
    rewrite <- N2Z.inj_div, <- N2Z.inj_mod, !decimal_of_N.
    rewrite digit_of_N by (apply N.mod_lt; lia).
    apply pretty_N_last. lia.
Qed.

Lemma zeros_plain n : Forall plain (chars (zeros n)).
Proof. induction n as [|n IH]; cbn [zeros chars]; [done |]. by constructor. Qed.

Lemma strip_zeros_length ds :
  String.length (strip_zeros ds) <= String.length ds.
Proof.
  induction ds as [|c rest IH]; [done |]. cbn [strip_zeros String.length].
  destruct (strip_zeros rest) as [|d kept].
  - destruct (Ascii.eqb c "0"); cbn [String.length]; lia.
  - cbn [String.length] in *. lia.
Qed.

(** [strip_zeros] takes nothing but zeros off the end. *)
Lemma strip_zeros_zeros ds :
  strip_zeros ds
    +:+ zeros (String.length ds - String.length (strip_zeros ds))
  = ds.
Proof.
  induction ds as [|c rest IH]; [done |]. cbn [strip_zeros String.length].
  destruct (strip_zeros rest) as [|d kept].
  - cbn [String.length] in IH. rewrite Nat.sub_0_r in IH.
    rewrite append_empty_l in IH.
    destruct (Ascii.eqb_spec c "0") as [-> | _].
    + cbn [String.length]. rewrite Nat.sub_0_r, append_empty_l.
      cbn [zeros]. by rewrite IH.
    + cbn [String.length]. rewrite append_cons, append_empty_l.
      replace (S (String.length rest) - 1) with (String.length rest) by lia.
      by rewrite IH.
  - rewrite append_cons. cbn [String.length] in *.
    replace (S (String.length rest) - S (S (String.length kept)))
      with (String.length rest - S (String.length kept)) by lia.
    by rewrite IH.
Qed.

Lemma strip_zeros_plain ds :
  Forall plain (chars ds) -> Forall plain (chars (strip_zeros ds)).
Proof.
  intros H. rewrite <- (strip_zeros_zeros ds), chars_append in H.
  by apply Forall_app in H as [H _].
Qed.

Lemma most_significant_remaining n ds :
  most_significant n ds +:+ remaining n ds = ds.
Proof.
  revert ds. induction n as [|n IH]; intros [|c rest];
    cbn [most_significant remaining]; try done.
  by rewrite append_cons, IH.
Qed.

Lemma most_significant_plain n ds :
  Forall plain (chars ds) -> Forall plain (chars (most_significant n ds)).
Proof.
  intros H. rewrite <- (most_significant_remaining n ds), chars_append in H.
  by apply Forall_app in H as [H _].
Qed.

Lemma remaining_plain n ds :
  Forall plain (chars ds) -> Forall plain (chars (remaining n ds)).
Proof.
  intros H. rewrite <- (most_significant_remaining n ds), chars_append in H.
  by apply Forall_app in H as [_ H].
Qed.

Lemma unsigned_text_plain s n : Forall plain (chars (unsigned_text s n)).
Proof.
  pose proof (strip_zeros_plain _ (decimal_plain (Z.pos s))) as Hds.
  unfold unsigned_text.
  repeat case_match; rewrite ?chars_append;
    repeat (apply Forall_app; split);
    try done;
    auto using zeros_plain, most_significant_plain, remaining_plain,
      decimal_plain;
    cbn [chars]; repeat constructor; done.
Qed.

(** The text of a number holds no double quote. *)
Lemma Number_toString_plain x : Forall plain (chars (Number_toString x)).
Proof.
  destruct x as [|[]|[]|[] s n]; cbn [Number_toString sign_text];
    rewrite ?chars_append; repeat (apply Forall_app; split);
    try apply unsigned_text_plain;
    cbn [chars]; repeat constructor; done.
Qed.

Lemma length_append (a b : string) :
  String.length (a +:+ b) = String.length a + String.length b.
Proof.
  induction a as [|c a IH]; [done |].
  rewrite append_cons. cbn [String.length]. by rewrite IH.
Qed.

(** A numeral has no more digits than the power of ten above it. *)
Lemma decimal_length d n :
  (0 <= n < 10 ^ Z.of_nat (S d))%Z -> String.length (decimal n) <= S d.
Proof.
  revert n. induction d as [|d IH]; intros n Hn; rewrite decimal_equation.
  - destruct (Z.ltb_spec n 0); [lia |].
    destruct (Z.ltb_spec n 10); [done |]. change (10 ^ Z.of_nat 1)%Z with 10%Z in Hn. lia.
  - destruct (Z.ltb_spec n 0); [lia |].
    destruct (Z.ltb_spec n 10); [cbn [String.length]; lia |].
    rewrite length_append. cbn [String.length].
    assert (String.length (decimal (n `div` 10)) <= S d); [| lia].
    apply IH. split; [apply Z.div_pos; lia |].
    apply Z.div_lt_upper_bound; [lia |].
    rewrite <- Z.pow_succ_r by lia.
    replace (Z.succ (Z.of_nat (S d))) with (Z.of_nat (S (S d))) by lia.
    lia.
Qed.

(** An integer literal below ten to the 21 prints as its numeral. *)
Lemma unsigned_text_numeral p :
  (Z.pos p < 10 ^ 21)%Z ->
  unsigned_text p (Z.of_nat (String.length (decimal (Z.pos p))))
  = decimal (Z.pos p).
Proof.
  intros Hp. unfold unsigned_text.
  pose proof (strip_zeros_length (decimal (Z.pos p))) as Hk.
  pose proof (decimal_length 20 (Z.pos p)) as Hn.
  change (Z.of_nat 21) with 21%Z in Hn. specialize (Hn ltac:(lia)).
  destruct (Z.leb_spec (-5) (Z.of_nat (String.length (decimal (Z.pos p)))));
    [| lia].
  destruct (Z.leb_spec (Z.of_nat (String.length (decimal (Z.pos p)))) 21);
    [| lia].
  cbn [andb].
  destruct (Z.leb_spec
              (Z.of_nat (String.length (strip_zeros (decimal (Z.pos p)))))
              (Z.of_nat (String.length (decimal (Z.pos p))))); [| lia].
  rewrite <- Nat2Z.inj_sub, Nat2Z.id by done.
  apply strip_zeros_zeros.
Qed.

Lemma Number_of_Z_text n :
  is_safe n = true -> Number_toString (Number_of_Z n) = decimal n.
Proof.
  unfold is_safe, MAX_SAFE_INTEGER. intros Hsafe%Z.leb_le.
  destruct n as [|p|p]; [done | |]; cbn [Number_of_Z Number_toString sign_text].
  - rewrite append_empty_l. apply unsigned_text_numeral. lia.
  - rewrite unsigned_text_numeral by lia. done.
Qed.

Lemma Number_of_Z_texts ns :
  forallb is_safe ns = true ->
  Number_toString <$> (Number_of_Z <$> ns) = decimal <$> ns.
Proof.
  induction ns as [|n ns IH]; [done |]. cbn [forallb].
  intros [Hn Hns]%andb_true_iff. rewrite !fmap_cons.
  by rewrite Number_of_Z_text, IH.
Qed.

End Leaves.

(** ** A subgroup pushed onto a group *)

Section Subgroups.

Lemma Array_map_snoc {A B} (f : A -> M B) xs x h rs t :
  (forall x' y h1, x' ∈ xs -> f x' h = Some (y, h1) -> h1 = h) ->
  Array_map f xs h = Some (rs, h) ->
  f x h = Some (t, h) ->
  Array_map f (xs ++ [x]) h = Some (rs ++ [t], h).
Proof.
  revert rs. induction xs as [|x0 xs IH]; intros rs Hpure Hxs Hx.
  - injection Hxs as <-. cbn. unfold bind. by rewrite Hx.
  - cbn [Array_map] in Hxs. rewrite <- app_comm_cons. cbn [Array_map].
    apply bind_Some in Hxs as (y & h1 & Hx0 & Hxs).
    apply bind_Some in Hxs as (zs & h2 & Hxs & Hret).
    injection Hret as <- ->.
    assert (h1 = h) as -> by (eapply Hpure; [by left | done]).
    unfold bind. rewrite Hx0.
    erewrite IH; [done | | done | done].
    intros. eapply Hpure; [by right | done].
Qed.

Lemma pushed_lookup_this this o sub h :
  h !! this = Some o ->
  pushed this o sub h !! this
  = Some {| and_or := and_or o;
            expressions := expressions o ++ [EBuilder (length h)] |}.
Proof.
  intros Ho%lookup_lt_Some. apply list_lookup_insert_eq.
  rewrite length_app. lia.
Qed.

Lemma pushed_lookup_sub this o sub h :
  h !! this = Some o -> pushed this o sub h !! length h = Some sub.
Proof.
  intros Ho%lookup_lt_Some. unfold pushed.
  rewrite list_lookup_insert_ne by lia. apply list_lookup_middle. done.
Qed.

Lemma pushed_lookup_old this o sub h i :
  i <> this -> i < length h -> pushed this o sub h !! i = h !! i.
Proof.
  intros Hne Hi. unfold pushed.
  rewrite list_lookup_insert_ne by done. by apply lookup_app_l.
Qed.

(** The text of a group after a subgroup was pushed onto it: the texts of
    the children it had, then the text of the subgroup. *)
Lemma build_pushed fuel this o sub h rs t :
  wf h ->
  h !! this = Some o -> expressions o <> [] ->
  Array_map (build_entry (build fuel)) (expressions o) h = Some (rs, h) ->
  build (S fuel) (length h) (pushed this o sub h)
  = Some (t, pushed this o sub h) ->
  build (S (S fuel)) this (pushed this o sub h)
  = Some (AndOr_text (and_or o) +:+ "(" +:+ join "," (rs ++ [t]) +:+ ")",
          pushed this o sub h).
Proof.
  intros Hwf Ho Hne Hold Hsub.
  pose proof (build_children (S fuel) this _ _ (rs ++ [t])
                (pushed_lookup_this _ _ sub _ Ho)) as Hbuild.
  cbn [and_or expressions] in Hbuild. apply Hbuild.
  { by destruct (expressions o). }
  apply Array_map_snoc; [| | done].
  - intros. by eapply build_entry_pure.
  - eapply Array_map_transport; [| | done].
    + intros. by eapply build_entry_pure.
    + intros [e|b] y Hin Hx; cbn [build_entry] in Hx |- *.
      * by injection Hx as <-.
      * destruct (Hwf _ _ _ Ho Hin) as [Hlt Hb].
        apply (build_mono fuel); [lia |].
        eapply build_frame; [done | | done].
        intros i Hi Hi'. apply pushed_lookup_old; lia.
Qed.

(** What [addBooleanExpr] does on a group with children, when the
    callback returns the store [h1]. *)
Lemma addBooleanExpr_nonempty_run this expr_type callback h o h1 o1 :
  h !! this = Some o -> expressions o <> [] ->
  callback (length h) (h ++ [{| and_or := expr_type; expressions := [] |}])
  = Some (tt, h1) ->
  h1 !! this = Some o1 ->
  addBooleanExpr this expr_type callback h
  = Some (tt, <[this := {| and_or := and_or o1;
                          expressions :=
                            expressions o1 ++ [EBuilder (length h)] |}]> h1).
Proof.
  intros Ho Hne Hcb Ho1.
  rewrite (addBooleanExpr_nonempty_eq _ _ _ _ _ Ho Hne), Hcb.
  by apply push_eq.
Qed.

Lemma addBooleanExpr_nonempty_adding this expr_type es h o :
  h !! this = Some o -> expressions o <> [] ->
  addBooleanExpr this expr_type (adding es) h
  = Some (tt, pushed this o
                {| and_or := expr_type; expressions := EExpression <$> es |} h).
Proof.
  intros Ho Hne.
  erewrite addBooleanExpr_nonempty_run; [done | done | done | | ].
  - erewrite adding_eq; [| by apply list_lookup_middle].
    cbn [and_or expressions app].
    rewrite insert_app_r_alt by done. by rewrite Nat.sub_diag.
  - by apply lookup_app_l_Some.
Qed.

(** The text of a subgroup of leaves, just pushed. *)
Lemma build_pushed_leaves fuel this o a es h :
  h !! this = Some o ->
  build (S fuel) (length h)
    (pushed this o {| and_or := a; expressions := EExpression <$> es |} h)
  = Some (match es with
          | [] => EmptyString
          | _ => AndOr_text a +:+ "(" +:+ join "," (buildExpression <$> es)
                   +:+ ")"
          end,
          pushed this o {| and_or := a; expressions := EExpression <$> es |} h).
Proof.
  intros Ho. destruct es as [|e es].
  - eapply build_empty; [by apply pushed_lookup_sub | done].
  - pose proof (build_children fuel _ _ _ (buildExpression <$> e :: es)
                  (pushed_lookup_sub _ _
                     {| and_or := a;
                        expressions := EExpression <$> e :: es |} _ Ho))
      as Hbuild.
    cbn [and_or expressions] in Hbuild.
    apply Hbuild; [done | apply Array_map_leaves].
Qed.

(** The text of a group after an object [b] of the store, allocated after
    it, was pushed onto it: the texts of the children it had, then the
    text of [b]. *)
Lemma build_after_push fuel this b o h rs t :
  wf h ->
  h !! this = Some o -> expressions o <> [] -> this < b ->
  Array_map (build_entry (build fuel)) (expressions o) h = Some (rs, h) ->
  build fuel b h = Some (t, h) ->
  build (S fuel) this
    (<[this := {| and_or := and_or o;
                  expressions := expressions o ++ [EBuilder b] |}]> h)
  = Some (AndOr_text (and_or o) +:+ "(" +:+ join "," (rs ++ [t]) +:+ ")",
          <[this := {| and_or := and_or o;
                       expressions := expressions o ++ [EBuilder b] |}]> h).
Proof.
  intros Hwf Ho Hne Hb Hold Hsub.
  assert (forall c, this < c ->
            forall i, c <= i -> i < length h ->
              <[this := {| and_or := and_or o;
                           expressions := expressions o ++ [EBuilder b] |}]> h
                !! i = h !! i) as Hagree.
  { intros c Hc i Hi _. apply list_lookup_insert_ne. lia. }
  pose proof (build_children fuel this
                (<[this := {| and_or := and_or o;
                              expressions := expressions o ++ [EBuilder b] |}]>
                   h) _ (rs ++ [t])
                (list_lookup_insert_eq _ _ _ (lookup_lt_Some _ _ _ Ho)))
    as Hbuild.
  cbn [and_or expressions] in Hbuild. apply Hbuild.
  { by destruct (expressions o). }
  apply Array_map_snoc.
  - intros. by eapply build_entry_pure.
  - eapply Array_map_transport; [| | done].
    + intros. by eapply build_entry_pure.
    + intros [e|c] y Hin Hx; cbn [build_entry] in Hx |- *.
      * by injection Hx as <-.
      * destruct (Hwf _ _ _ Ho Hin) as [Hlt _].
        eapply build_frame; [done | by apply Hagree | done].
  - cbn [build_entry]. eapply build_frame; [done | by apply Hagree | done].
Qed.

End Subgroups.

(** ** Statements on leaves, selects and sort directives *)

Section PureStatements.

(** C3.  A string scalar of a leaf is rendered between double quotes,
    with a backslash in front of each of its backslashes and double
    quotes and with each character of code 0 replaced by a backslash and
    the digit 0; [where] with the key [name] and the value made of John,
    a space, and Doe between double quotes gives the leaf [name.eq.]
    followed, between double quotes, by John, a space, and Doe between
    double quotes that each have a backslash in front.  A number or boolean
    scalar is rendered as its own text, without quotes: the text that the
    run time gives for the number, which holds no double quote and for a
    safe integer is its decimal numeral, and [true] or [false]. *)
Theorem scalar_values_rendering :
  (forall s, escape s = escaped s) /\
  (forall k o s,
     buildExpression {| key := k; operator := o; value := VString s |}
     = k +:+ "." +:+ Operator_text o +:+ "."
         +:+ dquote +:+ escaped s +:+ dquote) /\
  (forall k o x,
     buildExpression {| key := k; operator := o; value := VNum x |}
     = k +:+ "." +:+ Operator_text o +:+ "." +:+ Number_toString x) /\
  (forall x, Forall plain (chars (Number_toString x))) /\
  (forall n, is_safe n = true -> Number_toString (Number_of_Z n) = decimal n) /\
  (forall n,
     decimal n
     = if (n <? 0)%Z then "-" +:+ decimal (- n)
       else if (n <? 10)%Z then String (digit n) EmptyString
       else decimal (n `div` 10)
              +:+ String (digit (n `mod` 10)) EmptyString) /\
  (decimal 0 = "0" /\ decimal 7 = "7" /\ decimal 42 = "42"
   /\ decimal (-7) = "-7" /\ decimal (-1050) = "-1050"
   /\ decimal MAX_SAFE_INTEGER = "9007199254740991") /\
  (Number_toString NaN = "NaN"
   /\ Number_toString (Infinity false) = "Infinity"
   /\ Number_toString (Infinity true) = "-Infinity"
   /\ Number_toString (Zero true) = "0"
   /\ Number_toString (Finite false 15 1) = "1.5"
   /\ Number_toString (Finite true 25 0) = "-0.25"
   /\ Number_toString (Finite false 1 (-5)) = "0.000001"
   /\ Number_toString (Finite false 1 (-6)) = "1e-7"
   /\ Number_toString (Finite false 12345 3) = "123.45"
   /\ Number_toString (Finite false 1 21) = "100000000000000000000"
   /\ Number_toString (Finite false 1 22) = "1e+21"
   /\ Number_toString (Finite true 125 23) = "-1.25e+22") /\
  (forall k o b,
     buildExpression {| key := k; operator := o; value := VBoolean b |}
     = k +:+ "." +:+ Operator_text o +:+ "."
         +:+ (if b then "true" else "false")) /\
  (fst <$> (b <- new_FilterBuilder None ;;
            where_ b "name"
              (VString ("John " +:+ dquote +:+ "Doe" +:+ dquote)) ;;
            build 1 b) []
   = Some ("and(name.eq." +:+ dquote +:+ "John " +:+ backslash +:+ dquote
             +:+ "Doe" +:+ backslash +:+ dquote +:+ dquote +:+ ")")) /\
  (fst <$> (b <- new_FilterBuilder None ;;
            where_ b "age" (VNumber 42) ;;
            where_ b "debt" (VNumber (-1050)) ;;
            where_ b "ratio" (VNum (Finite false 15 1)) ;;
            where_ b "big" (VNum (Finite false 1 22)) ;;
            where_ b "none" (VNum NaN) ;;
            where_ b "active" (VBoolean false) ;;
            build 1 b) []
   = Some "and(age.eq.42,debt.eq.-1050,ratio.eq.1.5,big.eq.1e+21,none.eq.NaN,active.eq.false)").
Proof.
  split; [apply escape_escaped |]. split.
  { intros k o s. unfold buildExpression. cbn [value key operator].
    by rewrite escape_escaped. }
  split; [done |]. split; [apply Number_toString_plain |].
  split; [apply Number_of_Z_text |]. split; [apply decimal_equation |].
  split; [by vm_compute |]. split; [by vm_compute |]. split.
  { intros k o b. by destruct b. }
  split; by vm_compute.
Qed.

(** C4.  A sequence value of a leaf is rendered as its elements joined by
    commas between parentheses; no element is quoted or escaped, also
    when it is a string that holds a comma, a parenthesis, a quote or a
    backslash; a number element is rendered as its own text, which for a
    safe integer is its decimal numeral. *)
Theorem sequence_values_rendering :
  (forall k o xs,
     buildExpression {| key := k; operator := o; value := VStrings xs |}
     = k +:+ "." +:+ Operator_text o +:+ "." +:+ "(" +:+ join "," xs +:+ ")") /\
  (forall k o xs,
     buildExpression {| key := k; operator := o; value := VNums xs |}
     = k +:+ "." +:+ Operator_text o +:+ "."
         +:+ "(" +:+ join "," (Number_toString <$> xs) +:+ ")") /\
  (forall ns,
     forallb is_safe ns = true ->
     Number_toString <$> (Number_of_Z <$> ns) = decimal <$> ns) /\
  (forall n,
     decimal n
     = if (n <? 0)%Z then "-" +:+ decimal (- n)
       else if (n <? 10)%Z then String (digit n) EmptyString
       else decimal (n `div` 10)
              +:+ String (digit (n `mod` 10)) EmptyString) /\
  (Number_toString <$> [Finite false 1 22; Finite false 15 1; NaN;
                        Infinity true; Zero false]
   = ["1e+21"; "1.5"; "NaN"; "-Infinity"; "0"]) /\
  (fst <$> (b <- new_FilterBuilder None ;;
            whereIn b "tag"
              (VStrings ["a,b"; "c)"; "d" +:+ dquote +:+ "e";
                         "f" +:+ backslash +:+ "g"]) ;;
            build 1 b) []
   = Some ("and(tag.in.(a,b,c),d" +:+ dquote +:+ "e,f" +:+ backslash
             +:+ "g))")) /\
  (fst <$> (b <- new_FilterBuilder None ;;
            whereIn b "id" (VNumbers [1; 20; -3; 405]%Z) ;;
            whereIn b "size"
              (VNums [Number_of_Z 1; Finite false 1 22; Finite false 15 1;
                      Number_of_Z (-12)]) ;;
            build 1 b) []
   = Some "and(id.in.(1,20,-3,405),size.in.(1,1e+21,1.5,-12))").
Proof.
  split; [done |]. split; [done |]. split; [apply Number_of_Z_texts |].
  split; [apply decimal_equation |]. split; [by vm_compute |].
  split; by vm_compute.
Qed.

(** C7.  [buildSelect] turns each entry into a text of its own, a field
    into its name and a relation into its name followed by the text of
    its entries between parentheses, and joins the texts with commas in
    the order of the entries, one text per entry; the entries star and
    [posts] with star and [comments] with [body] give star, a comma, and
    [posts] followed between parentheses by star, a comma, and [comments]
    followed between parentheses by [body]. *)
Theorem buildSelect_rendering :
  (forall name, Query.buildSelect_value (Query.Field name) = name) /\
  (forall name fields,
     Query.buildSelect_value (Query.Relation name fields)
     = name +:+ "(" +:+ Query.buildSelect fields +:+ ")") /\
  (forall fields,
     Query.buildSelect fields = join "," (Query.buildSelect_value <$> fields)) /\
  (Query.buildSelect [] = EmptyString) /\
  (forall v, Query.buildSelect [v] = Query.buildSelect_value v) /\
  (forall v w rest,
     Query.buildSelect (v :: w :: rest)
     = Query.buildSelect_value v +:+ "," +:+ Query.buildSelect (w :: rest)) /\
  (forall (fields : list Query.SimplifiedSelect) (i : nat),
     (Query.buildSelect_value <$> fields) !! i
     = Query.buildSelect_value <$> fields !! i) /\
  (Query.buildSelect
     [Query.Field "*";
      Query.Relation "posts"
        [Query.Field "*"; Query.Relation "comments" [Query.Field "body"]]]
   = "*,posts(" +:+ "*,comments(body))").
Proof.
  repeat split; try done.
  intros fields i. apply list_lookup_fmap.
Qed.

(** C9.  The [formatSort] of [src/unnamed/part_002] maps each directive to
    its key, with an exclamation mark in front exactly when the order is
    descending, in the order of the list.  The [formatSort] of
    [src/src/Query.ts] computes the same array and drops it: what
    [request] puts under [sort] is [undefined] for every list. *)
Theorem formatSort_rendering :
  (forall sorts, Query.formatSort sorts = Query.directive_text <$> sorts) /\
  (forall (sorts : list Query.Sort) (i : nat),
     Query.formatSort sorts !! i = Query.directive_text <$> sorts !! i) /\
  (Query.formatSort [Query.mkSort "name" Query.asc; Query.mkSort "age" Query.desc]
   = ["name"; "!age"]) /\
  (forall sorts, QueryPlain.request_sort sorts = QueryPlain.undefined) /\
  (QueryPlain.request_sort
     [Query.mkSort "name" Query.asc; Query.mkSort "age" Query.desc]
   <> QueryPlain.returned ["name"; "!age"]).
Proof.
  assert (forall sorts, Query.formatSort sorts = Query.directive_text <$> sorts)
    as Heq.
  { intros sorts. unfold Query.formatSort. apply list_fmap_ext.
    intros _ [k []] _; reflexivity. }
  split; [done |]. split.
  { intros sorts i. by rewrite Heq, list_lookup_fmap. }
  repeat split; done.
Qed.

End PureStatements.

(** ** Statements on the scoping calls and on [build] *)

Section BuilderStatements.

(** C1.  [or] and [and] on a group without children allocate nothing:
    they overwrite the combinator of that group and run the callback on
    that same group, so what the callback adds becomes children of the
    group itself; [or] on a new builder with a callback that adds
    [where] of [x], 1 and [where] of [y], 2 makes [build] return the
    text [or(x.eq.1,y.eq.2)]. *)
Theorem scoping_call_on_empty_group :
  (forall this callback h o,
     h !! this = Some o -> expressions o = [] ->
     or this callback h
     = (callback this ;; ret this)
         (<[this := {| and_or := OR; expressions := [] |}]> h)
     /\ and this callback h
        = (callback this ;; ret this)
            (<[this := {| and_or := AND; expressions := [] |}]> h)) /\
  (forall this expr_type es h o,
     h !! this = Some o -> expressions o = [] -> es <> [] ->
     exists h',
       h' = <[this := {| and_or := expr_type;
                         expressions := EExpression <$> es |}]> h /\
       addBooleanExpr this expr_type (adding es) h = Some (tt, h') /\
       forall fuel,
         build (S fuel) this h'
         = Some (AndOr_text expr_type +:+ "("
                   +:+ join "," (buildExpression <$> es) +:+ ")", h')) /\
  (forall fuel,
     (b <- new_FilterBuilder None ;;
      or b (fun x => where_ x "x" (VNumber 1) ;;
                     where_ x "y" (VNumber 2) ;; ret tt) ;;
      build (S fuel) b) []
     = Some ("or(x.eq.1,y.eq.2)",
             [{| and_or := OR;
                 expressions :=
                   [EExpression (mkExpression "x" op_eq (VNumber 1));
                    EExpression (mkExpression "y" op_eq (VNumber 2))] |}])).
Proof.
  split; [| split].
  - intros this callback h o Ho Hnil. unfold or, and.
    unfold bind at 1 3.
    by rewrite !(addBooleanExpr_empty_eq _ _ _ _ _ Ho Hnil).
  - intros this expr_type es h o Ho Hnil Hes. eexists. split; [done |].
    assert (this < length h) as Hlt by (by eapply lookup_lt_Some).
    split.
    + rewrite (addBooleanExpr_empty_eq _ _ _ _ _ Ho Hnil).
      erewrite adding_eq; [| by apply list_lookup_insert_eq].
      cbn [and_or expressions app]. by rewrite list_insert_insert_eq.
    + intros fuel.
      pose proof (build_children fuel this
                    (<[this := {| and_or := expr_type;
                                  expressions := EExpression <$> es |}]> h)
                    _ (buildExpression <$> es)
                    (list_lookup_insert_eq _ _ _ Hlt)) as Hbuild.
      cbn [and_or expressions] in Hbuild. apply Hbuild.
      * by destruct es.
      * apply Array_map_leaves.
  - intros fuel. by vm_compute.
Qed.

(** C6.  [build] on a group without children returns the empty text,
    whatever the combinator of the group, also after [and] or [or] with a
    callback that adds nothing has overwritten the combinator; the root of
    a builder on which no call, at any depth, was [addExpression] or one of
    its wrappers is such a group. *)
Theorem build_of_empty_group :
  (forall this h o fuel,
     h !! this = Some o -> expressions o = [] ->
     build (S fuel) this h = Some (EmptyString, h)) /\
  (forall this expr_type h o fuel,
     h !! this = Some o -> expressions o = [] ->
     (addBooleanExpr this expr_type (fun _ => ret tt) ;;
      build (S fuel) this) h
     = Some (EmptyString,
             <[this := {| and_or := expr_type; expressions := [] |}]> h)) /\
  (forall calls root h fuel,
     forallb no_expressions calls = true ->
     fresh_builder calls = Some (root, h) ->
     build (S fuel) root h = Some (EmptyString, h)) /\
  (forall fuel,
     (b <- new_FilterBuilder None ;; build (S fuel) b) []
     = Some (EmptyString, [{| and_or := AND; expressions := [] |}])) /\
  (forall fuel,
     (b <- new_FilterBuilder None ;; or b (fun _ => ret tt) ;;
      build (S fuel) b) []
     = Some (EmptyString, [{| and_or := OR; expressions := [] |}])).
Proof.
  split; [| split; [| split; [| split]]].
  - intros this h o fuel Ho Hnil. by eapply build_empty.
  - intros this expr_type h o fuel Ho Hnil. unfold bind at 1.
    rewrite (addBooleanExpr_empty_eq _ _ _ _ _ Ho Hnil). cbn [ret].
    apply (build_empty _ _ _ {| and_or := expr_type; expressions := [] |});
      [| done].
    apply list_lookup_insert_eq. by eapply lookup_lt_Some.
  - intros calls root h fuel Hno Hrun.
    destruct (fresh_builder_no_expressions _ _ _ Hno Hrun) as [-> [a ->]].
    by eapply build_empty.
  - intros fuel. by vm_compute.
  - intros fuel. by vm_compute.
Qed.

(** C8.  [build] changes nothing in the store, so neither the children
    nor the combinator of any group, and a second call returns the same
    text; on a well-formed store, and so on the store of every builder made
    by method calls, [build] does return, twice the same text. *)
Theorem build_idempotent :
  (forall fuel this h s h',
     build fuel this h = Some (s, h') ->
     h' = h /\ build fuel this h' = Some (s, h')) /\
  (forall fuel fuel' this h s s' h1 h2,
     build fuel this h = Some (s, h1) ->
     build fuel' this h1 = Some (s', h2) ->
     s' = s /\ h2 = h) /\
  (forall h this,
     wf h -> this < length h ->
     exists s, forall fuel,
       length h <= fuel ->
       (x <- build fuel this ;; y <- build fuel this ;; ret (x, y)) h
       = Some ((s, s), h)) /\
  (forall calls,
     forallb (scoped 1) calls = true ->
     exists root h s,
       fresh_builder calls = Some (root, h) /\
       forall fuel,
         length h <= fuel ->
         (x <- build fuel root ;; y <- build fuel root ;; ret (x, y)) h
         = Some ((s, s), h)).
Proof.
  assert (forall h this,
             wf h -> this < length h ->
             exists s, forall fuel,
               length h <= fuel ->
               (x <- build fuel this ;; y <- build fuel this ;; ret (x, y)) h
               = Some ((s, s), h)) as Htwice.
  { intros h this Hwf Hthis.
    destruct (build_total h Hwf (length h) this) as [s Hs]; [lia | done |].
    exists s. intros fuel Hfuel.
    apply (build_mono _ fuel) in Hs; [| done].
    unfold bind. by rewrite !Hs. }
  split; [| split; [| split]].
  - intros fuel this h s h' Hrun.
    pose proof (build_pure _ _ _ _ _ Hrun) as ->. done.
  - intros fuel fuel' this h s s' h1 h2 Hrun1 Hrun2.
    pose proof (build_pure _ _ _ _ _ Hrun1) as ->.
    pose proof (build_pure _ _ _ _ _ Hrun2) as ->.
    by pose proof (build_deterministic _ _ _ _ _ _ Hrun1 Hrun2) as [= ->].
  - done.
  - intros calls Hscoped.
    destruct (fresh_builder_total calls Hscoped)
      as (root & h & _ & Hrun & Hwf & Hroot & _).
    destruct (Htwice h root Hwf Hroot) as [s Hs]. by exists root, h, s.
Qed.

(** C2, as the code has it.  [or] and [and] on a group with children make
    a new group with the combinator asked for, run the callback on the new
    group and then push the new group onto the group of the call, whose
    text becomes the texts of the children it had followed by the text of
    the new group; [whereIn] of [id] and 1, 2, 3 followed by [or] with a
    callback that adds [where] of [active], true, and [whereGte] of
    [created_at] and the string 2019-01-01 makes [build] return the text
    of the last part of the statement, with the string between double
    quotes. *)
Theorem scoping_call_on_nonempty_group :
  (forall this expr_type callback h o,
     h !! this = Some o -> expressions o <> [] ->
     addBooleanExpr this expr_type callback h
     = (builder <- new_FilterBuilder (Some expr_type) ;;
        callback builder ;;
        push this (EBuilder builder)) h
     /\ new_FilterBuilder (Some expr_type) h
        = Some (length h,
                h ++ [{| and_or := expr_type; expressions := [] |}])) /\
  (forall this expr_type es h o fuel s,
     wf h -> h !! this = Some o -> expressions o <> [] ->
     build fuel this h = Some (s, h) -> es <> [] ->
     exists h' body,
       h' = pushed this o {| and_or := expr_type;
                             expressions := EExpression <$> es |} h /\
       addBooleanExpr this expr_type (adding es) h = Some (tt, h') /\
       s = AndOr_text (and_or o) +:+ "(" +:+ body +:+ ")" /\
       build (S fuel) this h'
       = Some (AndOr_text (and_or o) +:+ "("
                 +:+ (body +:+ ","
                        +:+ (AndOr_text expr_type +:+ "("
                               +:+ join "," (buildExpression <$> es)
                               +:+ ")"))
                 +:+ ")", h')) /\
  (forall fuel,
     fst <$> Examples.nested_or (S (S fuel)) []
     = Some ("and(id.in.(1,2,3),or(active.eq.true,created_at.gte."
               +:+ dquote +:+ "2019-01-01" +:+ dquote +:+ "))")).
Proof.
  split; [| split].
  - intros this expr_type callback h o Ho Hne. split; [| done].
    unfold addBooleanExpr. unfold bind at 1.
    rewrite (load_eq _ _ _ Ho), length_eqb_0. by destruct (expressions o).
  - intros this expr_type es h o [|fuel] s Hwf Ho Hne Hbuild Hes; [done |].
    apply build_inv in Hbuild
        as (_ & o0 & Ho0 & [[Hnil _] | (_ & rs & Hmap & ->)]);
      assert (o0 = o) as -> by congruence; [done |].
    eexists _, (join "," rs). split; [done |].
    split; [by apply addBooleanExpr_nonempty_adding |]. split; [done |].
    erewrite (build_pushed _ _ _ _ _ _
                (AndOr_text expr_type +:+ "("
                   +:+ join "," (buildExpression <$> es) +:+ ")"));
      [| done | done | done | done |].
    2: { rewrite (build_pushed_leaves _ _ _ _ _ _ Ho). by destruct es. }
    rewrite join_snoc; [done |].
    intros ->. apply Array_map_length in Hmap. by destruct (expressions o).
  - intros fuel. by vm_compute.
Qed.

(** C10.  [or] and [and] on a group with children, with a callback that
    leaves the new subgroup without children, push that empty subgroup;
    its empty text is joined to the texts of the other children, so the
    text of the group ends in a comma before the closing parenthesis.  The
    callback may do nothing, relabel the subgroup, or add to other
    builders; [where] of [a], 1 followed by [or] with a callback that does
    nothing gives [and(a.eq.1,)]. *)
Theorem empty_subgroup_leaves_dangling_comma :
  (forall this expr_type callback h o u h1 sub,
     wf h -> h !! this = Some o -> expressions o <> [] ->
     well_behaved callback ->
     callback (length h) (h ++ [{| and_or := expr_type; expressions := [] |}])
     = Some (u, h1) ->
     h1 !! length h = Some sub -> expressions sub = [] ->
     exists o1 h' body,
       h1 !! this = Some o1 /\
       h' = <[this := {| and_or := and_or o1;
                         expressions :=
                           expressions o1 ++ [EBuilder (length h)] |}]> h1 /\
       addBooleanExpr this expr_type callback h = Some (tt, h') /\
       h' !! length h = Some sub /\
       (forall fuel,
          length h1 <= fuel ->
          build fuel this h1
          = Some (AndOr_text (and_or o) +:+ "(" +:+ body +:+ ")", h1)) /\
       (forall fuel,
          length h1 <= fuel ->
          build (S fuel) this h'
          = Some (AndOr_text (and_or o) +:+ "("
                    +:+ (body +:+ "," +:+ EmptyString) +:+ ")", h'))) /\
  (forall fuel,
     fst <$> (b <- new_FilterBuilder None ;;
              where_ b "a" (VNumber 1) ;;
              or b (fun _ => ret tt) ;;
              build (S (S fuel)) b) []
     = Some "and(a.eq.1,)") /\
  (forall fuel,
     fst <$> (b <- new_FilterBuilder None ;;
              where_ b "a" (VNumber 1) ;;
              or b (fun sub => and sub (fun _ => ret tt) ;; ret tt) ;;
              build (S (S fuel)) b) []
     = Some "and(a.eq.1,)") /\
  (forall fuel,
     fst <$> (b <- new_FilterBuilder None ;;
              where_ b "a" (VNumber 1) ;;
              or b (fun _ => where_ b "c" (VNumber 3) ;; ret tt) ;;
              build (S (S fuel)) b) []
     = Some "and(a.eq.1,c.eq.3,)").
Proof.
  split; [| split; [| split]]; try (intros fuel; by vm_compute).
  intros this expr_type callback h o [] h1 sub Hwf Ho Hne Hcb Hcall Hsub Hnil.
  destruct (Hcb _ _ _ _ Hcall) as (Hlen & Hwf1 & Hobj).
  rewrite length_app in Hlen. simpl in Hlen.
  assert (wf h1) as Hwfh1 by (apply Hwf1; by apply evolves_alloc).
  destruct (Hobj this o (lookup_app_l_Some _ _ _ _ Ho))
    as (o1 & Ho1 & Hpre & Hfix).
  specialize (Hfix Hne).
  assert (expressions o1 <> []) as Hne1.
  { intros Hnil1. rewrite Hnil1 in Hpre. by apply prefix_nil_inv in Hpre. }
  pose proof (lookup_lt_Some _ _ _ Ho) as Hthis.
  destruct (build_total h1 Hwfh1 (length h1) this) as [s1 Hs1]; [lia | lia |].
  destruct (length h1) as [|[|f]] eqn:Elen; [lia | lia |].
  apply build_inv in Hs1
      as (_ & o1' & Ho1' & [[Hnil1 _] | (_ & rs & Hmap & ->)]);
    assert (o1' = o1) as -> by congruence; [done |].
  assert (rs <> []) as Hrs.
  { intros ->. apply Array_map_length in Hmap. by destruct (expressions o1). }
  exists o1. eexists _, (join "," rs). split; [done |].
  split; [reflexivity |]. split.
  { by eapply addBooleanExpr_nonempty_run. }
  split; [rewrite list_lookup_insert_ne by lia; done |].
  rewrite <- Hfix. split.
  - intros fuel Hfuel. apply (build_mono (S (S f))); [done |].
    by eapply build_children.
  - intros fuel Hfuel. apply (build_mono (S (S (S f)))); [lia |].
    erewrite (build_after_push (S (S f)) this (length h) o1 h1 rs EmptyString);
      [| done | done | done | lia | |].
    + by rewrite join_snoc.
    + eapply Array_map_transport; [| | done].
      * intros. by eapply build_entry_pure.
      * intros [e|c] y _ Hx; cbn [build_entry] in Hx |- *; [done |].
        eapply build_mono; [| done]. lia.
    + by eapply build_empty.
Qed.

(** C2, as the specification words its example: the text it gives, with
    the date without quotes, is not what [build] returns, whatever the
    depth of the call stack. *)
Lemma nested_or_text_is_quoted :
  ~ exists fuel h,
      Examples.nested_or fuel []
      = Some ("and(id.in.(1,2,3),or(active.eq.true,created_at.gte.2019-01-01))",
              h).
Proof.
  intros (fuel & h & Hrun). unfold Examples.nested_or in Hrun.
  apply bind_Some in Hrun as (b & h1 & Hnew & Hrun).
  injection Hnew as <- <-.
  apply bind_Some in Hrun as (? & h2 & Hin & Hrun).
  vm_compute in Hin. injection Hin as <- <-.
  apply bind_Some in Hrun as (? & h3 & Hor & Hrun).
  vm_compute in Hor. injection Hor as _ Hh3.
  assert (exists r, build 2 0 h3 = Some r /\ fst r <> fst (
    "and(id.in.(1,2,3),or(active.eq.true,created_at.gte.2019-01-01))", h))
    as (r & Hr & Hdiff).
  { rewrite <- Hh3. eexists. split; [by vm_compute | by vm_compute]. }
  by rewrite (build_deterministic _ _ _ _ _ _ Hr Hrun) in Hdiff.
Qed.

(** C5, as the specification words it, fails twice.  A group other than
    the root has its combinator overwritten: the subgroup that [or] makes
    with the combinator [or] is turned into an [and] group by a call of
    [and] on it while it has no children.  And the combinator of the
    root is overwritten more than once: by [or] and then by [and], both
    called while the root has no children. *)
Lemma combinator_overwritten_beyond_root_once :
  ((b <- new_FilterBuilder None ;;
    where_ b "a" (VNumber 1) ;;
    new_FilterBuilder (Some OR)) []
   = Some (1, Examples.inside_or)) /\
  and_or <$> Examples.inside_or !! 1 = Some OR /\
  (exists h',
     and 1 (fun inner => where_ inner "x" (VNumber 1) ;; ret tt)
       Examples.inside_or
     = Some (1, h')
     /\ and_or <$> h' !! 1 = Some AND) /\
  (exists root h,
     Examples.and_inside_or [] = Some (root, h) /\
     and_or <$> h !! 1 = Some AND /\
     build 2 root h = Some ("and(a.eq.1,and(x.eq.1))", h)) /\
  (exists h0 h1 h2,
     new_FilterBuilder None [] = Some (0, h0) /\
     and_or <$> h0 !! 0 = Some AND /\
     or 0 (fun _ => ret tt) h0 = Some (0, h1) /\
     and_or <$> h1 !! 0 = Some OR /\
     and 0 (fun _ => ret tt) h1 = Some (0, h2) /\
     and_or <$> h2 !! 0 = Some AND).
Proof.
  split; [by vm_compute |]. split; [by vm_compute |]. split.
  { eexists. split; by vm_compute. }
  split.
  { eexists _, _. split; [by vm_compute |]. split; by vm_compute. }
  eexists _, _, _. repeat split; by vm_compute.
Qed.

(** C5, as the code has it.  The constructor sets the combinator, [and]
    when none is given.  Every call of [and] or [or] on a group without
    children overwrites the combinator of that group, the root or not,
    overwritten before or not.  A group with a child keeps its combinator
    through every call of [and] or [or] whose callback is well behaved,
    through every sequence of method calls, and every group keeps it
    through [addExpression]. *)
Theorem combinator_overwritten_while_empty :
  (forall a h,
     new_FilterBuilder a h
     = Some (length h,
             h ++ [{| and_or := match a with None => AND | Some a' => a' end;
                      expressions := [] |}])) /\
  (forall this expr_type callback h o,
     h !! this = Some o -> expressions o = [] ->
     addBooleanExpr this expr_type callback h
     = callback this
         (<[this := {| and_or := expr_type; expressions := [] |}]> h)) /\
  (forall this expr_type callback h u h' l o,
     well_behaved callback ->
     addBooleanExpr this expr_type callback h = Some (u, h') ->
     h !! l = Some o -> expressions o <> [] ->
     exists o', h' !! l = Some o' /\ and_or o' = and_or o) /\
  (forall env calls h u h' l o,
     sequence (exec env) calls h = Some (u, h') ->
     h !! l = Some o -> expressions o <> [] ->
     exists o', h' !! l = Some o' /\ and_or o' = and_or o) /\
  (forall this k op v h u h' l o,
     addExpression this k op v h = Some (u, h') ->
     h !! l = Some o ->
     exists o', h' !! l = Some o' /\ and_or o' = and_or o).
Proof.
  split; [done |]. split; [apply addBooleanExpr_empty_eq |].
  split; [| split].
  - intros this expr_type callback h u h' l o Hcb Hrun Ho Hne.
    destruct (addBooleanExpr_evolves _ _ _ _ _ _ Hcb Hrun) as (_ & _ & Hobj).
    destruct (Hobj _ _ Ho) as (o' & Ho' & _ & Hfix). eauto.
  - intros env calls h u h' l o Hrun Ho Hne.
    assert (evolves h h') as (_ & _ & Hobj).
    { eapply sequence_evolves; [| done].
      apply Forall_forall. intros c _. apply exec_evolves. }
    destruct (Hobj _ _ Ho) as (o' & Ho' & _ & Hfix). eauto.
  - intros this k op v h u h' l o Hrun Ho.
    unfold addExpression in Hrun.
    apply bind_Some in Hrun as (? & h1 & Hpush & Hret).
    injection Hret as _ <-. unfold push in Hpush.
    apply bind_Some in Hpush as (o0 & h2 & Hload & Hstore).
    apply load_Some in Hload as [Ho0 ->]. injection Hstore as <- <-.
    destruct (decide (l = this)) as [-> | Hl].
    + eexists. split.
      * apply list_lookup_insert_eq. by eapply lookup_lt_Some.
      * cbn [and_or]. congruence.
    + exists o. by rewrite list_lookup_insert_ne.
Qed.

End BuilderStatements.

(** ** The statements at the examples of the specification *)

Section Instances.

Import Examples.

Lemma wf_leaf_a : wf [leaf_a].
Proof.
  apply (fresh_builder_wf [CallAddExpression 0 "a" op_eq (VNumber 1)] 0).
  reflexivity.
Defined.

Lemma wf_leaf_id : wf [leaf_id].
Proof.
  apply (fresh_builder_wf
           [CallAddExpression 0 "id" op_in (VNumbers [1; 2; 3]%Z)] 0).
  reflexivity.
Defined.

(** C1 at the new builder and the callback that adds [x] and [y]. *)
Lemma scoping_call_on_empty_group_at_x_and_y :
  new_store !! 0 = Some new_object /\
  expressions new_object = [] /\
  x_and_y <> [] /\
  (or 0 (adding x_and_y) new_store
   = (adding x_and_y 0 ;; ret 0) [{| and_or := OR; expressions := [] |}]
   /\ and 0 (adding x_and_y) new_store
      = (adding x_and_y 0 ;; ret 0) [{| and_or := AND; expressions := [] |}]) /\
  exists h',
    h' = [{| and_or := OR; expressions := EExpression <$> x_and_y |}] /\
    addBooleanExpr 0 OR (adding x_and_y) new_store = Some (tt, h') /\
    forall fuel, build (S fuel) 0 h' = Some ("or(x.eq.1,y.eq.2)", h').
Proof.
  split; [reflexivity |]. split; [reflexivity |]. split; [discriminate |].
  split.
  - apply (proj1 scoping_call_on_empty_group 0 (adding x_and_y) new_store
             new_object); reflexivity.
  - apply (proj1 (proj2 scoping_call_on_empty_group) 0 OR x_and_y new_store
             new_object); [reflexivity | reflexivity | discriminate].
Defined.

(** C2 at the builder with the leaf on [id] and the callback that adds
    [active] and [created_at]. *)
Lemma scoping_call_on_nonempty_group_at_active_and_created :
  wf [leaf_id] /\
  [leaf_id] !! 0 = Some leaf_id /\
  expressions leaf_id <> [] /\
  build 1 0 [leaf_id] = Some ("and(id.in.(1,2,3))", [leaf_id]) /\
  active_and_created <> [] /\
  (addBooleanExpr 0 OR (adding active_and_created) [leaf_id]
   = (builder <- new_FilterBuilder (Some OR) ;;
      adding active_and_created builder ;;
      push 0 (EBuilder builder)) [leaf_id]
   /\ new_FilterBuilder (Some OR) [leaf_id]
      = Some (1, [leaf_id; {| and_or := OR; expressions := [] |}])) /\
  exists h' body,
    h' = pushed 0 leaf_id
           {| and_or := OR;
              expressions := EExpression <$> active_and_created |}
           [leaf_id] /\
    addBooleanExpr 0 OR (adding active_and_created) [leaf_id]
    = Some (tt, h') /\
    "and(id.in.(1,2,3))" = "and" +:+ "(" +:+ body +:+ ")" /\
    build 2 0 h'
    = Some ("and" +:+ "("
              +:+ (body +:+ ","
                     +:+ ("or" +:+ "("
                            +:+ join "," (buildExpression
                                            <$> active_and_created)
                            +:+ ")"))
              +:+ ")", h').
Proof.
  split; [exact wf_leaf_id |]. split; [reflexivity |].
  split; [discriminate |]. split; [reflexivity |]. split; [discriminate |].
  split.
  - apply (proj1 scoping_call_on_nonempty_group 0 OR
             (adding active_and_created) [leaf_id] leaf_id);
      [reflexivity | discriminate].
  - apply (proj1 (proj2 scoping_call_on_nonempty_group) 0 OR active_and_created
             [leaf_id] leaf_id 1 "and(id.in.(1,2,3))");
      [exact wf_leaf_id | reflexivity | discriminate | reflexivity
      | discriminate].
Defined.

(** C5 at the subgroup that [or] has just made, and at the builder with
    the leaf on [a]. *)
Lemma combinator_overwritten_while_empty_at_leaf_a :
  inside_or !! 1 = Some {| and_or := OR; expressions := [] |} /\
  addBooleanExpr 1 AND (adding x_and_y) inside_or
  = adding x_and_y 1 [leaf_a; {| and_or := AND; expressions := [] |}] /\
  well_behaved (adding x_and_y) /\
  addBooleanExpr 0 OR (adding x_and_y) [leaf_a]
  = Some (tt, pushed 0 leaf_a
                {| and_or := OR; expressions := EExpression <$> x_and_y |}
                [leaf_a]) /\
  sequence (exec [0]) [CallOr 0 [CallAddExpression 0 "x" op_eq (VNumber 1)]]
    [leaf_a]
  = Some (tt,
          pushed 0 leaf_a
            {| and_or := OR;
               expressions :=
                 [EExpression (mkExpression "x" op_eq (VNumber 1))] |}
            [leaf_a]) /\
  addExpression 0 "b" op_eq (VNumber 2) [leaf_a]
  = Some (0, [{| and_or := AND;
                 expressions :=
                   expressions leaf_a
                   ++ [EExpression (mkExpression "b" op_eq (VNumber 2))] |}]) /\
  [leaf_a] !! 0 = Some leaf_a /\
  expressions leaf_a <> [] /\
  (exists o',
     pushed 0 leaf_a
       {| and_or := OR; expressions := EExpression <$> x_and_y |}
       [leaf_a] !! 0 = Some o'
     /\ and_or o' = and_or leaf_a) /\
  (exists o',
     pushed 0 leaf_a
       {| and_or := OR;
          expressions := [EExpression (mkExpression "x" op_eq (VNumber 1))] |}
       [leaf_a] !! 0 = Some o'
     /\ and_or o' = and_or leaf_a) /\
  (exists o',
     [{| and_or := AND;
         expressions :=
           expressions leaf_a
           ++ [EExpression (mkExpression "b" op_eq (VNumber 2))] |}] !! 0
     = Some o'
     /\ and_or o' = and_or leaf_a).
Proof.
  split; [reflexivity |]. split.
  { apply (proj1 (proj2 combinator_overwritten_while_empty) 1 AND
             (adding x_and_y) inside_or
             {| and_or := OR; expressions := [] |}); reflexivity. }
  split; [exact (adding_well_behaved x_and_y) |].
  split; [reflexivity |]. split; [reflexivity |]. split; [reflexivity |].
  split; [reflexivity |]. split; [discriminate |].
  split; [| split].
  - apply (proj1 (proj2 (proj2 combinator_overwritten_while_empty))
             0 OR (adding x_and_y) [leaf_a] tt _ 0 leaf_a);
      [exact (adding_well_behaved x_and_y) | reflexivity | reflexivity
      | discriminate].
  - apply (proj1 (proj2 (proj2 (proj2 combinator_overwritten_while_empty)))
             [0] [CallOr 0 [CallAddExpression 0 "x" op_eq (VNumber 1)]]
             [leaf_a] tt _ 0 leaf_a);
      [reflexivity | reflexivity | discriminate].
  - apply (proj2 (proj2 (proj2 (proj2 combinator_overwritten_while_empty)))
             0 "b" op_eq (VNumber 2) [leaf_a] 0 _ 0 leaf_a);
      reflexivity.
Defined.

(** C6 at a lone [or] group, at the new builder, and at the caller that
    calls [or] with a callback that calls [and] with a callback that does
    nothing. *)
Lemma build_of_empty_group_at_or :
  [{| and_or := OR; expressions := [] |}] !! 0
  = Some {| and_or := OR; expressions := [] |} /\
  new_store !! 0 = Some new_object /\
  expressions new_object = [] /\
  forallb no_expressions [CallOr 0 [CallAnd 0 []]] = true /\
  fresh_builder [CallOr 0 [CallAnd 0 []]]
  = Some (0, [{| and_or := AND; expressions := [] |}]) /\
  build 1 0 [{| and_or := OR; expressions := [] |}]
  = Some (EmptyString, [{| and_or := OR; expressions := [] |}]) /\
  (addBooleanExpr 0 OR (fun _ => ret tt) ;; build 1 0) new_store
  = Some (EmptyString, [{| and_or := OR; expressions := [] |}]) /\
  build 1 0 [{| and_or := AND; expressions := [] |}]
  = Some (EmptyString, [{| and_or := AND; expressions := [] |}]).
Proof.
  split; [reflexivity |]. split; [reflexivity |]. split; [reflexivity |].
  split; [reflexivity |]. split; [reflexivity |]. split; [| split].
  - apply (proj1 build_of_empty_group 0
             [{| and_or := OR; expressions := [] |}]
             {| and_or := OR; expressions := [] |} 0);
      reflexivity.
  - apply (proj1 (proj2 build_of_empty_group) 0 OR new_store new_object 0);
      reflexivity.
  - apply (proj1 (proj2 (proj2 build_of_empty_group))
             [CallOr 0 [CallAnd 0 []]] 0
             [{| and_or := AND; expressions := [] |}] 0);
      reflexivity.
Defined.

(** C8 at the builder with the leaf on [a]. *)
Lemma build_idempotent_at_leaf_a :
  build 1 0 [leaf_a] = Some ("and(a.eq.1)", [leaf_a]) /\
  build 3 0 [leaf_a] = Some ("and(a.eq.1)", [leaf_a]) /\
  wf [leaf_a] /\
  0 < length [leaf_a] /\
  forallb (scoped 1) [CallAddExpression 0 "a" op_eq (VNumber 1)] = true /\
  ([leaf_a] = [leaf_a]
   /\ build 1 0 [leaf_a] = Some ("and(a.eq.1)", [leaf_a])) /\
  ("and(a.eq.1)" = "and(a.eq.1)" /\ [leaf_a] = [leaf_a]) /\
  (exists s, forall fuel,
     length [leaf_a] <= fuel ->
     (x <- build fuel 0 ;; y <- build fuel 0 ;; ret (x, y)) [leaf_a]
     = Some ((s, s), [leaf_a])) /\
  (exists root h s,
     fresh_builder [CallAddExpression 0 "a" op_eq (VNumber 1)]
     = Some (root, h) /\
     forall fuel,
       length h <= fuel ->
       (x <- build fuel root ;; y <- build fuel root ;; ret (x, y)) h
       = Some ((s, s), h)).
Proof.
  split; [reflexivity |]. split; [reflexivity |]. split; [exact wf_leaf_a |].
  split; [simpl; lia |]. split; [reflexivity |].
  split; [| split; [| split]].
  - apply (proj1 build_idempotent 1 0 [leaf_a] "and(a.eq.1)" [leaf_a]).
    reflexivity.
  - apply (proj1 (proj2 build_idempotent) 1 3 0 [leaf_a] "and(a.eq.1)"
             "and(a.eq.1)" [leaf_a] [leaf_a]); reflexivity.
  - apply (proj1 (proj2 (proj2 build_idempotent)) [leaf_a] 0);
      [exact wf_leaf_a | simpl; lia].
  - apply (proj2 (proj2 (proj2 build_idempotent))
             [CallAddExpression 0 "a" op_eq (VNumber 1)]).
    reflexivity.
Defined.

(** C10 at the builder with the leaf on [a] and the callback that calls
    [and] on the subgroup it receives, with a callback that does nothing:
    the subgroup is relabelled and stays without children. *)
Lemma empty_subgroup_leaves_dangling_comma_at_leaf_a :
  wf [leaf_a] /\
  [leaf_a] !! 0 = Some leaf_a /\
  expressions leaf_a <> [] /\
  well_behaved (callback_of [] [CallAnd 0 []]) /\
  callback_of [] [CallAnd 0 []] 1
    ([leaf_a] ++ [{| and_or := OR; expressions := [] |}])
  = Some (tt, [leaf_a; {| and_or := AND; expressions := [] |}]) /\
  exists o1 h' body,
    [leaf_a; {| and_or := AND; expressions := [] |}] !! 0 = Some o1 /\
    h' = <[0 := {| and_or := and_or o1;
                   expressions := expressions o1 ++ [EBuilder 1] |}]>
           [leaf_a; {| and_or := AND; expressions := [] |}] /\
    addBooleanExpr 0 OR (callback_of [] [CallAnd 0 []]) [leaf_a]
    = Some (tt, h') /\
    h' !! 1 = Some {| and_or := AND; expressions := [] |} /\
    (forall fuel,
       2 <= fuel ->
       build fuel 0 [leaf_a; {| and_or := AND; expressions := [] |}]
       = Some ("and" +:+ "(" +:+ body +:+ ")",
               [leaf_a; {| and_or := AND; expressions := [] |}])) /\
    (forall fuel,
       2 <= fuel ->
       build (S fuel) 0 h'
       = Some ("and" +:+ "(" +:+ (body +:+ "," +:+ EmptyString) +:+ ")", h')).
Proof.
  split; [exact wf_leaf_a |]. split; [reflexivity |].
  split; [discriminate |].
  split; [apply callback_of_well_behaved |]. split; [reflexivity |].
  apply (proj1 empty_subgroup_leaves_dangling_comma 0 OR
           (callback_of [] [CallAnd 0 []]) [leaf_a] leaf_a tt
           [leaf_a; {| and_or := AND; expressions := [] |}]
           {| and_or := AND; expressions := [] |});
    [exact wf_leaf_a | reflexivity | discriminate
    | apply callback_of_well_behaved | reflexivity | reflexivity
    | reflexivity].
Defined.

(** C3 at the number 42. *)
Lemma scalar_values_rendering_at_42 :
  is_safe 42 = true /\ Number_toString (Number_of_Z 42) = decimal 42.
Proof.
  split; [reflexivity |].
  apply (proj1 (proj2 (proj2 (proj2 (proj2 scalar_values_rendering)))) 42%Z).
  reflexivity.
Defined.

(** C4 at the numbers 1, 20 and -3. *)
Lemma sequence_values_rendering_at_1_20_3 :
  forallb is_safe [1; 20; -3]%Z = true /\
  Number_toString <$> (Number_of_Z <$> [1; 20; -3]%Z)
  = decimal <$> [1; 20; -3]%Z.
Proof.
  split; [reflexivity |].
  apply (proj1 (proj2 (proj2 sequence_values_rendering)) [1; 20; -3]%Z).
  reflexivity.
Defined.

End Instances.

(** * Further properties *)

(** ** [escape] and the leaves *)

Section Escaping.

Import Vocabulary.

Lemma append_nil_l_eq (s : string) : EmptyString +:+ s = s.
Proof. reflexivity. Qed.

Lemma append_cancel_l (a x y : string) : a +:+ x = a +:+ y -> x = y.
Proof.
  induction a as [|c a IH]; [done |].
  rewrite !append_cons. intros [= H]. by apply IH.
Qed.

Lemma chars_inj (x y : string) : chars x = chars y -> x = y.
Proof.
  revert y. induction x as [|c x IH]; intros [|d y] H; try done.
  injection H as -> H. f_equal. by apply IH.
Qed.

Lemma append_cancel_r (q x y : string) : x +:+ q = y +:+ q -> x = y.
Proof.
  intros H. apply chars_inj.
  apply (f_equal chars) in H. rewrite !chars_append in H.
  by apply app_inv_tail in H.
Qed.

(** The text of one character, in front of a text. *)
Lemma escaped_char_append c rest :
  escaped_char c +:+ rest
  = if is_backslash_or_dquote c then String "092" (String c rest)
    else if is_nul c then String "092" (String "0" rest)
    else String c rest.
Proof.
  unfold escaped_char.
  destruct (is_backslash_or_dquote c); [done |]. by destruct (is_nul c).
Qed.

Lemma is_backslash_false c :
  is_backslash_or_dquote c = false -> c <> "092"%char /\ c <> "034"%char.
Proof.
  unfold is_backslash_or_dquote. intros [H1 H2]%orb_false_iff.
  split; intros ->; discriminate.
Qed.

Lemma escaped_inj s : forall t, escaped s = escaped t -> s = t.
Proof.
  induction s as [|c s IH]; intros [|d t] H; cbn [escaped] in H.
  - done.
  - rewrite escaped_char_append in H. by repeat case_match.
  - rewrite escaped_char_append in H. by repeat case_match.
  - rewrite !escaped_char_append in H.
    destruct (is_backslash_or_dquote c) eqn:Hc,
             (is_backslash_or_dquote d) eqn:Hd.
    + injection H as -> H. f_equal. by apply IH.
    + destruct (is_nul d) eqn:Hn.
      * injection H as -> _. discriminate.
      * apply is_backslash_false in Hd as [Hd _]. by injection H as <- _.
    + destruct (is_nul c) eqn:Hn.
      * injection H as <- _. discriminate.
      * apply is_backslash_false in Hc as [Hc _]. by injection H as -> _.
    + destruct (is_nul c) eqn:Hnc, (is_nul d) eqn:Hnd.
      * apply Ascii.eqb_eq in Hnc as ->. apply Ascii.eqb_eq in Hnd as ->.
        injection H as H. f_equal. by apply IH.
      * apply is_backslash_false in Hd as [Hd _]. by injection H as <- _.
      * apply is_backslash_false in Hc as [Hc _]. by injection H as -> _.
      * injection H as -> H. f_equal. by apply IH.
Qed.

(** X1.  [escape] never gives the same text for two strings, and two
    leaves with the same key and operator and with string scalars are
    rendered alike only when the strings are the same. *)
Theorem string_leaf_injective :
  (forall s t, escape s = escape t -> s = t) /\
  (forall k o s t,
     buildExpression {| key := k; operator := o; value := VString s |}
     = buildExpression {| key := k; operator := o; value := VString t |} ->
     s = t).
Proof.
  assert (forall s t, escape s = escape t -> s = t) as Hinj.
  { intros s t. rewrite !escape_escaped. apply escaped_inj. }
  split; [done |].
  intros k o s t H. unfold buildExpression in H. cbn [key operator value] in H.
  repeat apply append_cancel_l in H. apply append_cancel_r in H.
  by apply Hinj.
Qed.

Lemma literal_body_escaped s : literal_body false (escaped s) = true.
Proof.
  induction s as [|c s IH]; [done |].
  cbn [escaped]. rewrite escaped_char_append.
  destruct (is_backslash_or_dquote c) eqn:Hc; [done |].
  destruct (is_nul c) eqn:Hn; [done |].
  apply is_backslash_false in Hc as [Hb Hq].
  cbn [literal_body].
  apply Ascii.eqb_neq in Hb. apply Ascii.eqb_neq in Hq. by rewrite Hb, Hq.
Qed.

(** X2.  Read as the body of a string literal, in which a backslash takes
    the next character with it, the text that [escape] returns has no
    double quote on its own and no backslash left without its character: the
    closing quote that [buildExpression] adds is the first one that ends
    the literal. *)
Theorem escape_literal_body s : literal_body false (escape s) = true.
Proof. rewrite escape_escaped. apply literal_body_escaped. Qed.

(** X3.  The text that [escape] returns holds no character of code 0. *)
Theorem escape_no_nul s :
  Forall (fun c => c <> "000"%char) (chars (escape s)).
Proof.
  rewrite escape_escaped. induction s as [|c s IH]; [constructor |].
  cbn [escaped]. rewrite escaped_char_append.
  destruct (is_backslash_or_dquote c) eqn:Hc.
  - unfold is_backslash_or_dquote in Hc.
    apply orb_true_iff in Hc as [->%Ascii.eqb_eq | ->%Ascii.eqb_eq];
      by repeat constructor.
  - destruct (is_nul c) eqn:Hn; [by repeat constructor |].
    constructor; [| done]. intros ->. discriminate.
Qed.

End Escaping.

(** ** Builders *)

Section Builders.

Import Vocabulary.

(** X4.  When [build] returns, it returns the empty text exactly when the
    group has no children: a group with a child never serializes to the
    empty text, whatever its children are. *)
Theorem build_empty_iff fuel this h s h' o :
  build fuel this h = Some (s, h') ->
  h !! this = Some o ->
  s = EmptyString <-> expressions o = [].
Proof.
  intros Hrun Ho. destruct fuel as [|fuel]; [done |].
  apply build_inv in Hrun
      as (_ & o0 & Ho0 & [[Hnil ->] | (Hne & rs & _ & ->)]);
    assert (o0 = o) as -> by congruence; [done |].
  split; [| done]. by destruct (and_or o).
Qed.

(** X5.  Method calls only append: after any sequence of calls every
    group that was in the store is still there and the children it had are,
    in the same order, the first of its children; none is removed,
    replaced or moved. *)
Theorem children_only_appended env calls h u h' l o :
  sequence (exec env) calls h = Some (u, h') ->
  h !! l = Some o ->
  exists o',
    h' !! l = Some o' /\
    exists added, expressions o' = expressions o ++ added.
Proof.
  intros Hrun Ho.
  assert (evolves h h') as (_ & _ & Hobj).
  { eapply sequence_evolves; [| done].
    apply Forall_forall. intros c _. apply exec_evolves. }
  destruct (Hobj _ _ Ho) as (o' & Ho' & [added Hpre] & _). eauto.
Qed.

Lemma leaf_first_insert this o o' h :
  leaf_first h ->
  h !! this = Some o ->
  (forall b rest, expressions o' = EBuilder b :: rest ->
                  exists rest', expressions o = EBuilder b :: rest') ->
  leaf_first (<[this := o']> h).
Proof.
  intros Hh Ho Hfirst l o0 b rest Hl Hb.
  apply list_lookup_insert_Some in Hl as [(<- & <- & _) | [Hne Hl]].
  - destruct (Hfirst _ _ Hb) as [rest' Hrest]. by eapply Hh.
  - by eapply Hh.
Qed.

Lemma leaf_first_alloc a h :
  leaf_first h -> leaf_first (h ++ [{| and_or := a; expressions := [] |}]).
Proof.
  intros Hh l o b rest Hl Hb.
  apply lookup_app_Some in Hl as [Hl | [_ Hl]]; [by eapply Hh |].
  apply list_lookup_singleton_Some in Hl as [_ <-]. done.
Qed.

Lemma push_leaf_first this entry h u h' :
  push this entry h = Some (u, h') ->
  (forall o, h !! this = Some o ->
             expressions o <> [] \/ exists e, entry = EExpression e) ->
  leaf_first h -> leaf_first h'.
Proof.
  intros Hrun Hentry Hh. unfold push in Hrun.
  apply bind_Some in Hrun as (o & h1 & Hload & Hrun).
  apply load_Some in Hload as [Ho ->]. injection Hrun as <- <-.
  eapply leaf_first_insert; [done | done |].
  cbn [expressions]. intros b rest Hb.
  destruct (expressions o) as [|x xs] eqn:E.
  - destruct (Hentry _ Ho) as [Hne | [e ->]]; [by rewrite E in Hne | done].
  - injection Hb as -> _. eauto.
Qed.

Lemma addExpression_leaf_first this k op v h u h' :
  addExpression this k op v h = Some (u, h') -> leaf_first h -> leaf_first h'.
Proof.
  unfold addExpression. intros (? & h1 & Hpush & Hret)%bind_Some.
  injection Hret as _ <-. eapply push_leaf_first; [done |]. eauto.
Qed.

Lemma addBooleanExpr_leaf_first this expr_type callback h u h' :
  well_behaved callback -> keeps_leaf_first callback ->
  addBooleanExpr this expr_type callback h = Some (u, h') ->
  leaf_first h -> leaf_first h'.
Proof.
  intros Hwb Hcb Hrun Hh. unfold addBooleanExpr in Hrun.
  apply bind_Some in Hrun as (o & h0 & Hload & Hrun).
  apply load_Some in Hload as [Ho ->].
  rewrite length_eqb_0 in Hrun. destruct (expressions o) eqn:E.
  - apply bind_Some in Hrun as ([] & h1 & Hset & Hrun).
    rewrite (set_and_or_eq _ _ _ _ Ho) in Hset. injection Hset as <-.
    eapply Hcb; [done |].
    eapply leaf_first_insert; [done | done |].
    cbn [expressions]. rewrite E. eauto.
  - apply bind_Some in Hrun as (builder & h1 & Hnew & Hrun).
    injection Hnew as <- <-.
    apply bind_Some in Hrun as (? & h2 & Hcall & Hpush).
    eapply push_leaf_first; [done | |].
    + intros o2 Ho2. left.
      destruct (Hwb _ _ _ _ Hcall) as (_ & _ & Hobj).
      destruct (Hobj this o (lookup_app_l_Some _ _ _ _ Ho))
        as (o2' & Ho2' & [added Hpre] & _).
      assert (o2' = o2) as -> by congruence. rewrite Hpre, E. done.
    + eapply Hcb; [done |]. by apply leaf_first_alloc.
Qed.

Lemma sequence_leaf_first calls :
  Forall (fun c => forall env h u h',
              exec env c h = Some (u, h') -> leaf_first h -> leaf_first h')
    calls ->
  forall env h u h',
    sequence (exec env) calls h = Some (u, h') -> leaf_first h -> leaf_first h'.
Proof.
  induction 1 as [|c calls Hc _ IH]; intros env h u h' Hrun Hh;
    cbn [sequence] in Hrun.
  - by injection Hrun as _ <-.
  - apply bind_Some in Hrun as (? & h1 & Hfirst & Hrest).
    eapply IH; [done |]. by eapply Hc.
Qed.

Lemma exec_leaf_first c :
  forall env h u h',
    exec env c h = Some (u, h') -> leaf_first h -> leaf_first h'.
Proof.
  induction c as [target k o v | target body IH | target body IH]
    using Call_nested_ind; intros env h u h' Hrun Hh; cbn [exec] in Hrun;
    destruct (env !! target) as [this|]; try done;
    apply bind_Some in Hrun as (? & h1 & Hcall & Hret);
    injection Hret as _ <-.
  - by eapply addExpression_leaf_first.
  - unfold and in Hcall. apply bind_Some in Hcall as (? & h2 & Hcall & Hret).
    injection Hret as _ <-.
    eapply addBooleanExpr_leaf_first; [| | done | done].
    + apply (callback_of_well_behaved env body).
    + intros builder ? ? ?. by apply sequence_leaf_first.
  - unfold or in Hcall. apply bind_Some in Hcall as (? & h2 & Hcall & Hret).
    injection Hret as _ <-.
    eapply addBooleanExpr_leaf_first; [| | done | done].
    + apply (callback_of_well_behaved env body).
    + intros builder ? ? ?. by apply sequence_leaf_first.
Qed.

(** X6.  In the store of a builder made by method calls the first child
    of a group is never a subgroup: [and] and [or] push a subgroup only
    onto a group that already has a child, and on a group without children
    they relabel the group instead. *)
Theorem first_child_is_a_leaf calls root h l o first rest :
  fresh_builder calls = Some (root, h) ->
  h !! l = Some o ->
  expressions o = first :: rest ->
  exists e, first = EExpression e.
Proof.
  intros Hrun Ho Hfirst. unfold fresh_builder in Hrun.
  apply bind_Some in Hrun as (r & h1 & Hnew & Hrun).
  injection Hnew as <- <-.
  apply bind_Some in Hrun as (? & h2 & Hrun & Hret). injection Hret as <- <-.
  assert (leaf_first h2) as Hh.
  { eapply sequence_leaf_first; [| done |].
    - apply Forall_forall. intros c _. apply exec_leaf_first.
    - apply (leaf_first_alloc AND []). intros l' o' b rest' Hl.
      by rewrite lookup_nil in Hl. }
  destruct first as [e | b]; [by exists e |].
  by destruct (Hh _ _ _ _ Ho Hfirst).
Qed.

(** X7.  A new builder on which only expressions were added, through
    [addExpression] or its wrappers, serializes to [and], an opening
    parenthesis, the leaves in the order of the calls joined by commas, and
    a closing parenthesis. *)
Theorem plain_builder_text es fuel :
  es <> [] ->
  (b <- new_FilterBuilder None ;; adding es b ;; build (S fuel) b) []
  = Some ("and(" +:+ join "," (buildExpression <$> es) +:+ ")",
          [{| and_or := AND; expressions := EExpression <$> es |}]).
Proof.
  intros Hes. unfold bind at 1. cbn [new_FilterBuilder alloc length app].
  unfold bind at 1.
  erewrite adding_eq; [| reflexivity].
  cbn [and_or expressions app].
  pose proof (build_children fuel 0
                [{| and_or := AND; expressions := EExpression <$> es |}]
                _ (buildExpression <$> es) eq_refl) as Hbuild.
  cbn [and_or expressions] in Hbuild. apply Hbuild.
  - by destruct es.
  - apply Array_map_leaves.
Qed.

End Builders.

(** ** Paths, headers and parameters of a [Query] *)

Section Queries.

Import Vocabulary.

Lemma replace_trailing_slashes_spec s :
  ends_with_slash (QueryClass.replace_trailing_slashes s) = false /\
  exists n, s = QueryClass.replace_trailing_slashes s +:+ slashes n.
Proof.
  induction s as [|c s [IHend [n IHn]]]; [split; [done | by exists 0] |].
  cbn [QueryClass.replace_trailing_slashes].
  destruct (QueryClass.replace_trailing_slashes s) as [|d kept] eqn:E.
  - destruct (QueryClass.is_slash c) eqn:Hc.
    + split; [done |]. exists (S n).
      apply Ascii.eqb_eq in Hc as ->. by rewrite IHn.
    + split; [by cbn; rewrite Hc |]. exists n. by rewrite IHn at 1.
  - split; [done |]. exists n. by rewrite IHn at 1.
Qed.

Lemma replace_trailing_slashes_id s :
  ends_with_slash s = false -> QueryClass.replace_trailing_slashes s = s.
Proof.
  induction s as [|c s IH]; [done |].
  intros Hend. cbn [QueryClass.replace_trailing_slashes].
  destruct s as [|d s].
  - cbn in *. by rewrite Hend.
  - rewrite IH by done. done.
Qed.

(** X8.  [getPath] without an id returns [API_PATH] followed by the path
    of the query with exactly the slashes at its end removed: the result
    does not end with a slash, putting some number of slashes back gives
    the joined text again, and a joined text that does not end with a slash
    is returned as it is. *)
Theorem getPath_strips_trailing_slashes API_PATH this :
  ends_with_slash (QueryClass.getPath API_PATH None this) = false /\
  (exists n,
     QueryClass.String_of API_PATH +:+ QueryClass.path this
     = QueryClass.getPath API_PATH None this +:+ slashes n) /\
  (ends_with_slash
     (QueryClass.String_of API_PATH +:+ QueryClass.path this) = false ->
   QueryClass.getPath API_PATH None this
   = QueryClass.String_of API_PATH +:+ QueryClass.path this).
Proof.
  unfold QueryClass.getPath.
  destruct (replace_trailing_slashes_spec
              (QueryClass.String_of API_PATH +:+ QueryClass.path this))
    as [Hend Hn].
  split; [done |]. split; [done |]. apply replace_trailing_slashes_id.
Qed.

(** X9.  [get] with the empty id, and [update] and [delete] with a payload
    whose [id] is missing or empty, address the URL that [list] addresses,
    the collection; with an id that is not empty [get] addresses that URL
    followed by a slash and the id. *)
Theorem empty_id_addresses_the_collection :
  (forall API_PATH this,
     QueryClass.url <$> QueryClass.get API_PATH EmptyString this
     = QueryClass.url <$> QueryClass.list API_PATH this) /\
  (forall API_PATH (d : gmap string string) this,
     d !! "id" = None \/ d !! "id" = Some EmptyString ->
     QueryClass.url <$> QueryClass.update API_PATH d this
     = QueryClass.url <$> QueryClass.list API_PATH this
     /\ QueryClass.url <$> QueryClass.delete API_PATH d this
        = QueryClass.url <$> QueryClass.list API_PATH this) /\
  (forall API_PATH id this c,
     id <> EmptyString ->
     QueryClass.list API_PATH this = Some c ->
     exists c',
       QueryClass.get API_PATH id this = Some c' /\
       QueryClass.url c' = QueryClass.url c +:+ "/" +:+ id).
Proof.
  split; [| split].
  - intros API_PATH this. unfold QueryClass.get, QueryClass.list. done.
  - intros API_PATH d this Hid.
    unfold QueryClass.update, QueryClass.delete, QueryClass.list,
      QueryClass.request.
    destruct Hid as [-> | ->];
      by destruct (QueryClass.formatSort_value _).
  - intros API_PATH id this c Hid Hlist.
    unfold QueryClass.get, QueryClass.list, QueryClass.request in *.
    destruct (QueryClass.formatSort_value _); [| done].
    injection Hlist as <-. eexists. split; [done |].
    cbn. by destruct id.
Qed.

Lemma assign_set {V} key (value : V) (obj : gmap string V) :
  String.eqb key "__proto__" = false ->
  QueryClass.assign key value obj = <[key := value]> obj.
Proof. intros Hkey. unfold QueryClass.assign. by rewrite Hkey. Qed.

Lemma queryParameter_set key value this :
  String.eqb key "__proto__" = false ->
  QueryClass.queryParameter key value this
  = {| QueryClass.queryParams := <[key := value]> (QueryClass.queryParams this);
       QueryClass.headers_of := QueryClass.headers_of this;
       QueryClass.path := QueryClass.path this |}.
Proof.
  intros Hkey. unfold QueryClass.queryParameter. by rewrite assign_set.
Qed.

(** X10.  [headers] keeps every header that its argument does not name and
    replaces the value of those it names; [header] does what [headers]
    does with the one entry when the name is not [__proto__], or when the
    headers have an entry of that name already; [header] with the name
    [__proto__] on headers without such an entry changes nothing. *)
Theorem headers_merge :
  (forall (hs : gmap string string) this name,
     QueryClass.headers_of (QueryClass.headers hs this) !! name
     = match hs !! name with
       | Some v => Some v
       | None => QueryClass.headers_of this !! name
       end) /\
  (forall name value this,
     name <> "__proto__" \/ is_Some (QueryClass.headers_of this !! name) ->
     QueryClass.header name value this
     = QueryClass.headers {[name := value]} this) /\
  (forall value this,
     QueryClass.headers_of this !! "__proto__" = None ->
     QueryClass.header "__proto__" value this
     = {| QueryClass.queryParams := QueryClass.queryParams this;
          QueryClass.headers_of := QueryClass.headers_of this;
          QueryClass.path := QueryClass.path this |}) /\
  (forall value this,
     QueryClass.headers_of
       (QueryClass.header "__proto__" value
          (QueryClass.headers {["__proto__" := "a"]} this)) !! "__proto__"
     = Some value).
Proof.
  split; [| split; [| split]].
  - intros hs this name. cbn [QueryClass.headers QueryClass.headers_of].
    destruct (hs !! name) as [v|] eqn:E.
    + by apply lookup_union_Some_l.
    + by rewrite lookup_union_r.
  - intros name value this Hname.
    unfold QueryClass.header, QueryClass.headers, QueryClass.assign.
    rewrite <- insert_union_singleton_l.
    destruct (String.eqb_spec name "__proto__") as [-> | _]; [| done].
    destruct Hname as [Hname | [v Hv]]; [done |]. by rewrite Hv.
  - intros value this Hnone.
    unfold QueryClass.header, QueryClass.assign.
    by rewrite String.eqb_refl, Hnone.
  - intros value this.
    unfold QueryClass.header, QueryClass.headers, QueryClass.assign.
    cbn [QueryClass.headers_of].
    rewrite String.eqb_refl, <- insert_union_singleton_l, lookup_insert_eq.
    by rewrite lookup_insert_eq.
Qed.


(** [filter] with a callback made of method calls returns, whatever the
    call stack beyond the length of the store, and leaves a well-formed
    store. *)
Lemma filter_returns body this h :
  forallb (scoped 1) body = true -> wf h ->
  exists text h',
    wf h' /\
    forall fuel,
      length h' <= fuel ->
      QueryClass.filter (callback_of [] body) fuel this h
      = Some (QueryClass.queryParameter "filter" (QueryClass.PString text)
                this, h').
Proof.
  intros Hscoped Hwf.
  destruct (sequence_total body) with (env := [length h])
    (h := h ++ [{| and_or := AND; expressions := [] |}]) as [h1 Hrun].
  { apply Forall_forall. intros c _. apply exec_total. }
  { done. }
  { constructor; [rewrite length_app; simpl; lia | constructor]. }
  assert (evolves (h ++ [{| and_or := AND; expressions := [] |}]) h1)
    as (Hlen & Hwf1 & _).
  { eapply sequence_evolves; [| done].
    apply Forall_forall. intros c _. apply exec_evolves. }
  rewrite length_app in Hlen. simpl in Hlen.
  assert (wf h1) as Hwfh1.
  { apply Hwf1. by apply (evolves_alloc AND h). }
  destruct (build_total h1 Hwfh1 (length h1) (length h)) as [text Htext];
    [lia | lia |].
  exists text, h1. split; [done |]. intros fuel Hfuel.
  unfold QueryClass.filter. unfold bind at 1. cbn [new_FilterBuilder alloc].
  unfold bind at 1. unfold callback_of. rewrite Hrun.
  unfold bind. by rewrite (build_mono _ fuel _ _ _ Hfuel Htext).
Qed.

(** X12.  A second call of [filter] replaces the filter of the first: what
    is stored is the text of the builder of the second callback alone, and
    nothing else of the query changes.  With callbacks made of method calls
    both calls return, for every call stack beyond the length of the store
    that they leave. *)
Theorem filter_replaces_filter :
  (forall cb1 cb2 fuel1 fuel2 this h q1 h1 q2 h2,
     QueryClass.filter cb1 fuel1 this h = Some (q1, h1) ->
     QueryClass.filter cb2 fuel2 q1 h1 = Some (q2, h2) ->
     exists text,
       (b <- new_FilterBuilder None ;; cb2 b ;; build fuel2 b) h1
       = Some (text, h2) /\
       q2 = QueryClass.queryParameter "filter" (QueryClass.PString text) this) /\
  (forall body1 body2 this h,
     forallb (scoped 1) body1 = true ->
     forallb (scoped 1) body2 = true ->
     wf h ->
     exists text1 h1 text2 h2,
       forall fuel1 fuel2,
         length h1 <= fuel1 -> length h2 <= fuel2 ->
         QueryClass.filter (callback_of [] body1) fuel1 this h
         = Some (QueryClass.queryParameter "filter"
                   (QueryClass.PString text1) this, h1) /\
         QueryClass.filter (callback_of [] body2) fuel2
           (QueryClass.queryParameter "filter" (QueryClass.PString text1) this)
           h1
         = Some (QueryClass.queryParameter "filter"
                   (QueryClass.PString text2) this, h2) /\
         (b <- new_FilterBuilder None ;; callback_of [] body2 b ;;
          build fuel2 b) h1
         = Some (text2, h2)).
Proof.
  assert (forall cb1 cb2 fuel1 fuel2 this h q1 h1 q2 h2,
     QueryClass.filter cb1 fuel1 this h = Some (q1, h1) ->
     QueryClass.filter cb2 fuel2 q1 h1 = Some (q2, h2) ->
     exists text,
       (b <- new_FilterBuilder None ;; cb2 b ;; build fuel2 b) h1
       = Some (text, h2) /\
       q2 = QueryClass.queryParameter "filter" (QueryClass.PString text) this)
    as Hreplace.
  { unfold QueryClass.filter.
    intros cb1 cb2 fuel1 fuel2 this h q1 h1 q2 h2 Hrun1 Hrun2.
    apply bind_Some in Hrun1 as (b1 & ha & Hnew1 & Hrun1).
    apply bind_Some in Hrun1 as (? & hb & Hcb1 & Hrun1).
    apply bind_Some in Hrun1 as (text1 & hc & Hbuild1 & Hret1).
    injection Hret1 as <- <-.
    apply bind_Some in Hrun2 as (b2 & hd & Hnew2 & Hrun2).
    apply bind_Some in Hrun2 as (? & he & Hcb2 & Hrun2).
    apply bind_Some in Hrun2 as (text2 & hf & Hbuild2 & Hret2).
    injection Hret2 as <- <-.
    exists text2. split.
    - unfold bind. rewrite Hnew2, Hcb2, Hbuild2. done.
    - rewrite !queryParameter_set by done.
      cbn [QueryClass.queryParams QueryClass.headers_of QueryClass.path].
      by rewrite insert_insert_eq. }
  split; [done |].
  intros body1 body2 this h Hbody1 Hbody2 Hwf.
  destruct (filter_returns body1 this h Hbody1 Hwf) as (text1 & h1 & Hwf1 & Hrun1).
  destruct (filter_returns body2
              (QueryClass.queryParameter "filter" (QueryClass.PString text1)
                 this) h1 Hbody2 Hwf1) as (text2 & h2 & _ & Hrun2).
  exists text1, h1, text2, h2. intros fuel1 fuel2 Hfuel1 Hfuel2.
  specialize (Hrun1 fuel1 Hfuel1). specialize (Hrun2 fuel2 Hfuel2).
  split; [done |]. split.
  - rewrite Hrun2. rewrite !queryParameter_set by done.
    cbn [QueryClass.queryParams QueryClass.headers_of QueryClass.path].
    by rewrite insert_insert_eq.
  - unfold QueryClass.filter in Hrun2.
    apply bind_Some in Hrun2 as (b2 & hd & Hnew2 & Hrun2).
    apply bind_Some in Hrun2 as (? & he & Hcb2 & Hrun2).
    apply bind_Some in Hrun2 as (text2' & hf & Hbuild2 & Hret2).
    unfold bind. rewrite Hnew2, Hcb2, Hbuild2.
    injection Hret2 as Hq2 ->.
    apply (f_equal (fun m => m !! "filter")) in Hq2.
    rewrite !assign_set, !lookup_insert_eq in Hq2 by done.
    by injection Hq2 as ->.
Qed.





(** X14.  Once [queryParameter] has put a string under [sort], [sort]
    throws and so does every request: the string has neither [push] nor
    [map]. *)
Theorem string_under_sort_throws s this key order m u options :
  QueryClass.sort key order
    (QueryClass.queryParameter "sort" (QueryClass.PString s) this) = None /\
  QueryClass.request m u options
    (QueryClass.queryParameter "sort" (QueryClass.PString s) this) = None.
Proof.
  unfold QueryClass.sort, QueryClass.request.
  rewrite queryParameter_set by done.
  cbn [QueryClass.queryParams]. by rewrite lookup_insert_eq.
Qed.

Lemma formatSort_strings xs :
  QueryClass.map_throwing QueryClass.formatSort_element
    (QueryClass.EString <$> xs)
  = Some (replicate (length xs) QueryClass.EUndefined).
Proof.
  induction xs as [|x xs IH]; [done |].
  rewrite fmap_cons. cbn [QueryClass.map_throwing QueryClass.formatSort_element].
  by rewrite IH.
Qed.

(** X15.  Sort keys put under [sort] by [queryParameter] as an array of
    strings do not reach the request: [formatSort] turns each of them into
    [undefined]. *)
Theorem strings_under_sort_become_undefined (xs : list string) this m u :
  exists c,
    QueryClass.request m u QueryClass.no_options
      (QueryClass.queryParameter "sort"
         (QueryClass.PArray (QueryClass.EString <$> xs)) this)
    = Some c /\
    QueryClass.params c !! "sort"
    = Some (QueryClass.PArray (replicate (length xs) QueryClass.EUndefined)).
Proof.
  unfold QueryClass.request. rewrite queryParameter_set by done.
  cbn [QueryClass.queryParams]. rewrite lookup_insert_eq.
  cbn [QueryClass.formatSort_value]. rewrite formatSort_strings.
  eexists. split; [done |]. cbn. apply lookup_insert_eq.
Qed.

(** X16.  In [src/src/Query.ts], [include] throws on a new query, and on
    every query that has nothing under [include]: the constructor fills
    [includes], the method spreads [include]. *)
Theorem include_throws_on_a_new_query :
  (forall path includes,
     QueryPlainClass.include includes (QueryPlainClass.new_Query path) = None) /\
  (forall this includes,
     QueryClass.queryParams this !! "include" = None ->
     QueryPlainClass.include includes this = None).
Proof.
  split.
  - intros path includes. done.
  - intros this includes Hnone. unfold QueryPlainClass.include.
    by rewrite Hnone.
Qed.

Lemma code_points_from_ascii s :
  forallb (fun c => N_of_ascii c <? 128)%N (chars s) = true ->
  QueryPlainClass.code_points_from s
  = (EmptyString, (fun c => String c EmptyString) <$> chars s).
Proof.
  induction s as [|c s IH]; [done |].
  cbn [chars forallb]. intros [Hc Hs]%andb_true_iff.
  cbn [QueryPlainClass.code_points_from]. rewrite (IH Hs).
  unfold QueryPlainClass.is_continuation.
  apply N.ltb_lt in Hc.
  replace (128 <=? N_of_ascii c)%N with false
    by (symmetry; apply N.leb_gt; lia).
  by rewrite fmap_cons.
Qed.

(** X17.  Once an array is under [include], [include] appends its
    arguments to it, call after call and in order; a string under [include]
    is first taken apart into its code points, which for a string of
    characters below 128 are its characters, one by one. *)
Theorem include_appends :
  (forall this (ys : list QueryClass.Element) (xs zs : list string),
     exists q1 q2,
       QueryPlainClass.include xs
         (QueryClass.queryParameter "include" (QueryClass.PArray ys) this)
       = Some q1 /\
       QueryPlainClass.include zs q1 = Some q2 /\
       QueryClass.queryParams q2 !! "include"
       = Some (QueryClass.PArray
                 (ys ++ (QueryClass.EString <$> xs)
                     ++ (QueryClass.EString <$> zs)))) /\
  (forall this (s : string) (xs : list string),
     exists q1,
       QueryPlainClass.include xs
         (QueryClass.queryParameter "include" (QueryClass.PString s) this)
       = Some q1 /\
       QueryClass.queryParams q1 !! "include"
       = Some (QueryClass.PArray
                 ((QueryClass.EString <$> QueryPlainClass.code_points s)
                  ++ (QueryClass.EString <$> xs)))) /\
  (forall s,
     forallb (fun c => N_of_ascii c <? 128)%N (chars s) = true ->
     QueryPlainClass.code_points s
     = (fun c => String c EmptyString) <$> chars s) /\
  (QueryPlainClass.code_points
     (String "226" (String "130" (String "172" "a")))
   = [String "226" (String "130" (String "172" EmptyString)); "a"]
   /\ QueryPlainClass.code_points
        ("x" +:+ String "195" (String "169" "y")
             +:+ String "240" (String "159" (String "152" (String "128" "z"))))
      = ["x"; String "195" (String "169" EmptyString); "y";
         String "240" (String "159" (String "152" (String "128" EmptyString)));
         "z"]).
Proof.
  split; [| split; [| split]].
  - intros this ys xs zs. eexists _, _.
    unfold QueryPlainClass.include. rewrite queryParameter_set by done.
    cbn [QueryClass.queryParams]. rewrite lookup_insert_eq.
    cbn [QueryPlainClass.spread]. split; [done |].
    rewrite queryParameter_set by done.
    cbn [QueryClass.queryParams]. rewrite lookup_insert_eq.
    cbn [QueryPlainClass.spread]. split; [done |].
    rewrite queryParameter_set by done.
    cbn [QueryClass.queryParams]. rewrite lookup_insert_eq.
    by rewrite <- app_assoc.
  - intros this s xs. eexists.
    unfold QueryPlainClass.include. rewrite queryParameter_set by done.
    cbn [QueryClass.queryParams]. rewrite lookup_insert_eq.
    cbn [QueryPlainClass.spread]. split; [done |].
    rewrite queryParameter_set by done.
    cbn [QueryClass.queryParams]. apply lookup_insert_eq.
  - intros s Hs. unfold QueryPlainClass.code_points.
    by rewrite (code_points_from_ascii s Hs).
  - split; by vm_compute.
Qed.

End Queries.

(** ** Selects and the base path *)

Section Selects.

Import Vocabulary.

Lemma join_app sep xs ys :
  xs <> [] -> ys <> [] ->
  join sep (xs ++ ys) = join sep xs +:+ sep +:+ join sep ys.
Proof.
  intros Hxs Hys. induction xs as [|x [|x' xs] IH]; [done | |].
  - destruct ys; [done |]. done.
  - change ((x :: x' :: xs) ++ ys) with (x :: x' :: (xs ++ ys)).
    rewrite !join_cons.
    change (x' :: (xs ++ ys)) with ((x' :: xs) ++ ys).
    rewrite IH by done. by rewrite !append_assoc.
Qed.

(** X18.  The text of a select made of two parts, both with an entry, is
    the text of the first part, a comma, and the text of the second part;
    and [select] stores what [rawSelect] stores when it is given the text
    of [buildSelect]. *)
Theorem buildSelect_app :
  (forall xs ys : list Query.SimplifiedSelect,
     xs <> [] -> ys <> [] ->
     Query.buildSelect (xs ++ ys)
     = Query.buildSelect xs +:+ "," +:+ Query.buildSelect ys) /\
  (forall fields this,
     QueryClass.select fields this
     = QueryClass.rawSelect (Query.buildSelect fields) this).
Proof.
  split; [| done].
  intros xs ys Hxs Hys. unfold Query.buildSelect. rewrite fmap_app.
  apply join_app; by destruct xs, ys.
Qed.

Lemma count_char_append c a b :
  count_char c (a +:+ b) = count_char c a + count_char c b.
Proof.
  induction a as [|d a IH]; [done |].
  rewrite append_cons. cbn [count_char]. rewrite IH. lia.
Qed.

Lemma SimplifiedSelect_nested_ind (P : Query.SimplifiedSelect -> Prop) :
  (forall name, P (Query.Field name)) ->
  (forall name fields, Forall P fields -> P (Query.Relation name fields)) ->
  forall value, P value.
Proof.
  intros Hfield Hrelation. fix IH 1. intros [name | name fields].
  - apply Hfield.
  - apply Hrelation.
    induction fields as [|f fields IHfields]; constructor; [apply IH | done].
Qed.

Lemma count_char_join c (texts : list string) :
  c <> ","%char ->
  count_char c (join "," texts) = sum_list (count_char c <$> texts).
Proof.
  intros Hc. induction texts as [|t [|t' texts] IH]; [done | |].
  - cbn. lia.
  - rewrite join_cons, !count_char_append, IH.
    cbn [count_char]. apply Ascii.eqb_neq in Hc. rewrite Hc.
    rewrite !fmap_cons. cbn [sum_list sum_list_with]. reflexivity.
Qed.

Lemma plain_name_counts name :
  plain_name name = true ->
  count_char "040" name = 0 /\ count_char "041" name = 0.
Proof.
  unfold plain_name. intros [H1 H2]%andb_true_iff.
  by apply Nat.eqb_eq in H1, H2.
Qed.

Lemma buildSelect_value_balanced value :
  plain_names value = true ->
  count_char "040" (Query.buildSelect_value value)
  = count_char "041" (Query.buildSelect_value value).
Proof.
  induction value as [name | name fields IH] using SimplifiedSelect_nested_ind;
    cbn [plain_names Query.buildSelect_value].
  - intros [-> ->]%plain_name_counts. done.
  - intros [[Hopen Hclose]%plain_name_counts Hfields]%andb_true_iff.
    rewrite !count_char_append, !count_char_join by done.
    rewrite Hopen, Hclose. cbn [count_char Ascii.eqb Bool.eqb].
    assert (sum_list (count_char "040"
                        <$> (Query.buildSelect_value <$> fields))
            = sum_list (count_char "041"
                          <$> (Query.buildSelect_value <$> fields))) as ->.
    { induction IH as [|f fields Hf _ IHsum]; [done |].
      cbn [forallb] in Hfields.
      apply andb_true_iff in Hfields as [Hhead Hrest].
      rewrite !fmap_cons. cbn [sum_list sum_list_with].
      rewrite (Hf Hhead). f_equal. by apply IHsum. }
    cbn. lia.
Qed.

(** X19.  When no name of a select, at any depth, holds a parenthesis, the
    text of [buildSelect] has as many opening as closing parentheses. *)
Theorem buildSelect_balanced fields :
  forallb plain_names fields = true ->
  count_char "040" (Query.buildSelect fields)
  = count_char "041" (Query.buildSelect fields).
Proof.
  intros Hfields. unfold Query.buildSelect.
  rewrite !count_char_join by done.
  induction fields as [|f fields IH]; [done |].
  cbn [forallb] in Hfields. apply andb_true_iff in Hfields as [Hhead Hrest].
  rewrite !fmap_cons. cbn [sum_list sum_list_with].
  rewrite (buildSelect_value_balanced _ Hhead). f_equal. by apply IH.
Qed.

Lemma replace_trailing_slashes_prefix a b :
  a <> EmptyString -> ends_with_slash a = false ->
  exists kept, QueryClass.replace_trailing_slashes (a +:+ b) = a +:+ kept.
Proof.
  induction a as [|c a IH]; [done |]. intros _ Hend.
  rewrite append_cons. cbn [QueryClass.replace_trailing_slashes].
  destruct a as [|d a].
  - cbn in Hend. rewrite append_nil_l_eq.
    destruct (QueryClass.replace_trailing_slashes b) as [|e kept].
    + rewrite Hend. by exists EmptyString.
    + by exists (String e kept).
  - destruct IH as [kept Hkept]; [done | done |].
    rewrite Hkept. rewrite append_cons. by exists kept.
Qed.

(** X20.  When [API_PATH] is not set, the URL that [getPath] returns starts
    with the text [undefined]. *)
Theorem getPath_without_API_PATH id this :
  exists rest, QueryClass.getPath None id this = "undefined" +:+ rest.
Proof.
  unfold QueryClass.getPath. cbn [QueryClass.String_of].
  destruct (replace_trailing_slashes_prefix "undefined" (QueryClass.path this))
    as [kept ->]; [done | done |].
  destruct id as [[|c id]|]; try by exists kept.
  exists (kept +:+ "/" +:+ String c id). by rewrite append_assoc.
Qed.

End Selects.

(** ** The further statements at concrete inputs *)

Section FurtherInstances.

Import Examples Vocabulary.

Lemma string_leaf_injective_at_a :
  escape "a" = escape "a" /\
  buildExpression {| key := "k"; operator := op_eq; value := VString "a" |}
  = buildExpression {| key := "k"; operator := op_eq; value := VString "a" |} /\
  "a" = "a" /\ "a" = "a".
Proof.
  split; [reflexivity |]. split; [reflexivity |]. split.
  - apply (proj1 string_leaf_injective "a" "a"). reflexivity.
  - apply (proj2 string_leaf_injective "k" op_eq "a" "a"). reflexivity.
Defined.

Lemma build_empty_iff_at_leaf_a :
  build 1 0 [leaf_a] = Some ("and(a.eq.1)", [leaf_a]) /\
  [leaf_a] !! 0 = Some leaf_a /\
  ("and(a.eq.1)" = EmptyString <-> expressions leaf_a = []).
Proof.
  split; [reflexivity |]. split; [reflexivity |].
  apply (build_empty_iff 1 0 [leaf_a] "and(a.eq.1)" [leaf_a] leaf_a);
    reflexivity.
Defined.

Lemma children_only_appended_at_leaf_a :
  sequence (exec [0]) [CallOr 0 [CallAddExpression 0 "x" op_eq (VNumber 1)]]
    [leaf_a]
  = Some (tt,
          pushed 0 leaf_a
            {| and_or := OR;
               expressions :=
                 [EExpression (mkExpression "x" op_eq (VNumber 1))] |}
            [leaf_a]) /\
  [leaf_a] !! 0 = Some leaf_a /\
  exists o',
    pushed 0 leaf_a
      {| and_or := OR;
         expressions := [EExpression (mkExpression "x" op_eq (VNumber 1))] |}
      [leaf_a] !! 0 = Some o' /\
    exists added, expressions o' = expressions leaf_a ++ added.
Proof.
  split; [reflexivity |]. split; [reflexivity |].
  apply (children_only_appended [0]
           [CallOr 0 [CallAddExpression 0 "x" op_eq (VNumber 1)]]
           [leaf_a] tt _ 0 leaf_a); reflexivity.
Defined.

Lemma first_child_is_a_leaf_at_leaf_a :
  fresh_builder [CallAddExpression 0 "a" op_eq (VNumber 1); CallOr 0 []]
  = Some (0, pushed 0 leaf_a {| and_or := OR; expressions := [] |} [leaf_a]) /\
  pushed 0 leaf_a {| and_or := OR; expressions := [] |} [leaf_a] !! 0
  = Some {| and_or := AND;
            expressions := expressions leaf_a ++ [EBuilder 1] |} /\
  exists e, EExpression (mkExpression "a" op_eq (VNumber 1)) = EExpression e.
Proof.
  split; [reflexivity |]. split; [reflexivity |].
  apply (first_child_is_a_leaf
           [CallAddExpression 0 "a" op_eq (VNumber 1); CallOr 0 []] 0
           (pushed 0 leaf_a {| and_or := OR; expressions := [] |} [leaf_a])
           0 {| and_or := AND;
                expressions := expressions leaf_a ++ [EBuilder 1] |}
           _ [EBuilder 1]); reflexivity.
Defined.

Lemma plain_builder_text_at_x_and_y :
  x_and_y <> [] /\
  (b <- new_FilterBuilder None ;; adding x_and_y b ;; build 1 b) []
  = Some ("and(" +:+ join "," (buildExpression <$> x_and_y) +:+ ")",
          [{| and_or := AND; expressions := EExpression <$> x_and_y |}]).
Proof.
  split; [discriminate |]. apply (plain_builder_text x_and_y 0). discriminate.
Defined.

Lemma getPath_strips_trailing_slashes_at_users :
  ends_with_slash ("http://api" +:+ "/users") = false /\
  QueryClass.getPath (Some "http://api") None (QueryClass.new_Query "/users")
  = "http://api" +:+ "/users".
Proof.
  split; [reflexivity |].
  apply (proj2 (proj2 (getPath_strips_trailing_slashes (Some "http://api")
                         (QueryClass.new_Query "/users")))).
  reflexivity.
Defined.

Lemma empty_id_addresses_the_collection_at_users :
  ((∅ : gmap string string) !! "id" = None) /\
  "7" <> EmptyString /\
  (exists c, QueryClass.list (Some "http://api")
               (QueryClass.new_Query "/users") = Some c) /\
  (QueryClass.url <$> QueryClass.update (Some "http://api") ∅
                        (QueryClass.new_Query "/users")
   = QueryClass.url <$> QueryClass.list (Some "http://api")
                          (QueryClass.new_Query "/users")
   /\ QueryClass.url <$> QueryClass.delete (Some "http://api") ∅
                           (QueryClass.new_Query "/users")
      = QueryClass.url <$> QueryClass.list (Some "http://api")
                             (QueryClass.new_Query "/users")) /\
  exists c',
    QueryClass.get (Some "http://api") "7" (QueryClass.new_Query "/users")
    = Some c' /\
    QueryClass.url c' = "http://api/users" +:+ "/" +:+ "7".
Proof.
  split; [reflexivity |]. split; [discriminate |].
  split; [eexists; reflexivity |]. split.
  - apply (proj1 (proj2 empty_id_addresses_the_collection)
             (Some "http://api") ∅ (QueryClass.new_Query "/users")).
    left. reflexivity.
  - apply (proj2 (proj2 empty_id_addresses_the_collection)
             (Some "http://api") "7" (QueryClass.new_Query "/users")
             {| QueryClass.url := "http://api/users";
                QueryClass.method := QueryClass.GET;
                QueryClass.params :=
                  <["sort" := QueryClass.PArray []]>
                    (QueryClass.queryParams (QueryClass.new_Query "/users"));
                QueryClass.headers_sent := ∅;
                QueryClass.data := None |});
      [discriminate | reflexivity].
Defined.

(** X12 at a first filter on [x] and [y] and a second, empty one, and at
    callbacks made of method calls. *)
Lemma filter_replaces_filter_at_x_and_y :
  (exists q1 h1 q2 h2,
     QueryClass.filter (adding x_and_y) 1 (QueryClass.new_Query "/users") []
     = Some (q1, h1) /\
     QueryClass.filter (fun _ => ret tt) 1 q1 h1 = Some (q2, h2) /\
     exists text,
       (b <- new_FilterBuilder None ;; ret tt ;; build 1 b) h1
       = Some (text, h2) /\
       q2 = QueryClass.queryParameter "filter" (QueryClass.PString text)
              (QueryClass.new_Query "/users")) /\
  forallb (scoped 1) [CallAddExpression 0 "x" op_eq (VNumber 1)] = true /\
  forallb (scoped 1) [CallOr 0 []] = true /\
  wf [] /\
  exists text1 h1 text2 h2,
    forall fuel1 fuel2,
      length h1 <= fuel1 -> length h2 <= fuel2 ->
      QueryClass.filter
        (callback_of [] [CallAddExpression 0 "x" op_eq (VNumber 1)]) fuel1
        (QueryClass.new_Query "/users") []
      = Some (QueryClass.queryParameter "filter" (QueryClass.PString text1)
                (QueryClass.new_Query "/users"), h1) /\
      QueryClass.filter (callback_of [] [CallOr 0 []]) fuel2
        (QueryClass.queryParameter "filter" (QueryClass.PString text1)
           (QueryClass.new_Query "/users")) h1
      = Some (QueryClass.queryParameter "filter" (QueryClass.PString text2)
                (QueryClass.new_Query "/users"), h2) /\
      (b <- new_FilterBuilder None ;; callback_of [] [CallOr 0 []] b ;;
       build fuel2 b) h1
      = Some (text2, h2).
Proof.
  split.
  - eexists _, _, _, _. split; [reflexivity |]. split; [reflexivity |].
    eapply (proj1 filter_replaces_filter (adding x_and_y) (fun _ => ret tt)
              1 1 (QueryClass.new_Query "/users") []); reflexivity.
  - split; [reflexivity |]. split; [reflexivity |]. split; [exact wf_nil |].
    apply (proj2 filter_replaces_filter
             [CallAddExpression 0 "x" op_eq (VNumber 1)] [CallOr 0 []]
             (QueryClass.new_Query "/users") []);
      [reflexivity | reflexivity | exact wf_nil].
Defined.


Lemma include_throws_on_a_new_query_at_users :
  QueryClass.queryParams (QueryPlainClass.new_Query "/users") !! "include"
  = None /\
  QueryPlainClass.include ["posts"] (QueryPlainClass.new_Query "/users") = None.
Proof.
  split; [reflexivity |].
  apply (proj2 include_throws_on_a_new_query
           (QueryPlainClass.new_Query "/users") ["posts"]).
  reflexivity.
Defined.

Lemma buildSelect_app_at_a_b :
  [Query.Field "a"] <> [] /\ [Query.Field "b"] <> [] /\
  Query.buildSelect ([Query.Field "a"] ++ [Query.Field "b"])
  = Query.buildSelect [Query.Field "a"] +:+ ","
      +:+ Query.buildSelect [Query.Field "b"].
Proof.
  split; [discriminate |]. split; [discriminate |].
  apply (proj1 buildSelect_app [Query.Field "a"] [Query.Field "b"]);
    discriminate.
Defined.

Lemma buildSelect_balanced_at_posts :
  forallb plain_names
    [Query.Field "*";
     Query.Relation "posts"
       [Query.Field "*"; Query.Relation "comments" [Query.Field "body"]]]
  = true /\
  count_char "040"
    (Query.buildSelect
       [Query.Field "*";
        Query.Relation "posts"
          [Query.Field "*"; Query.Relation "comments" [Query.Field "body"]]])
  = count_char "041"
      (Query.buildSelect
         [Query.Field "*";
          Query.Relation "posts"
            [Query.Field "*"; Query.Relation "comments" [Query.Field "body"]]]).
Proof.
  split; [reflexivity |].
  apply (buildSelect_balanced
           [Query.Field "*";
            Query.Relation "posts"
              [Query.Field "*";
               Query.Relation "comments" [Query.Field "body"]]]).
  reflexivity.
Defined.

(** X10 at the header [Accept], and at the name [__proto__] on a new
    query. *)
Lemma headers_merge_at_accept :
  ("Accept" <> "__proto__"
   \/ is_Some (QueryClass.headers_of (QueryClass.new_Query "/users")
                 !! "Accept")) /\
  QueryClass.header "Accept" "text/plain" (QueryClass.new_Query "/users")
  = QueryClass.headers {["Accept" := "text/plain"]}
      (QueryClass.new_Query "/users") /\
  QueryClass.headers_of (QueryClass.new_Query "/users") !! "__proto__" = None /\
  QueryClass.header "__proto__" "a" (QueryClass.new_Query "/users")
  = QueryClass.new_Query "/users".
Proof.
  split; [left; discriminate |]. split.
  - apply (proj1 (proj2 headers_merge) "Accept" "text/plain"
             (QueryClass.new_Query "/users")).
    left. discriminate.
  - split; [reflexivity |].
    apply (proj1 (proj2 (proj2 headers_merge)) "a"
             (QueryClass.new_Query "/users")).
    reflexivity.
Defined.

(** X17 at the string [posts]. *)
Lemma include_appends_at_posts :
  forallb (fun c => N_of_ascii c <? 128)%N (chars "posts") = true /\
  QueryPlainClass.code_points "posts"
  = (fun c => String c EmptyString) <$> chars "posts".
Proof.
  split; [reflexivity |].
  apply (proj1 (proj2 (proj2 include_appends)) "posts"). reflexivity.
Defined.

End FurtherInstances.
